(** * ENI bridge-hub adapter: range scanner and event classifier

    Shallow embedding of [src/adapters/enibridgehub/index.ts].

    - Block numbers are JavaScript numbers holding integers; they are
      modelled as [Z] ([Math.floor (range / 2)] is [range / 2]).
    - A JavaScript string is a sequence of UTF-16 code units ([JSString]).
    - The log source ([getLogs] of the SDK), the ABI decoder
      ([iface.parseLog]) and the two text decoders ([toUtf8String],
      [Buffer.from (_, "hex").toString ()]) are external libraries: they are
      section variables.  A call that may throw returns a sum or an option;
      an exception that no [catch] takes ends the adapter call, which then
      returns [inl] of it.
    - [await] is sequencing: the state of the log source is threaded
      through the scanner, which also records every fetch it issues. *)

From Equations Require Import Equations.
From Stdlib Require Import ZArith NArith List String Ascii Bool Lia Sorted.
Import ListNotations.

Local Open Scope Z_scope.

(** ** Configuration *)

Definition Chain := string.

Definition ORBITER_CONTRACT : string :=
  "0xe530d28960d48708CcF3e62Aa7B42A80bC427Aef"%string.

Definition SOURCE_CHAINS : list Chain :=
  ["ethereum"; "bsc"; "polygon"; "arbitrum"; "optimism"; "base"]%string.

Definition ENI_CHAIN : Chain := "eni"%string.

(** ** JavaScript values used by the classifier *)

(** A string as the regular expression sees it: UTF-16 code units. *)
Definition JSString := list N.

(** Code units of an ASCII literal. *)
Fixpoint js (s : string) : JSString :=
  match s with
  | EmptyString => []
  | String c r => N_of_ascii c :: js r
  end.

(** The values [Number] takes on a run of decimal digits: an integer held
    by a double, or [Infinity]. *)
Inductive JSNumber :=
| Num (z : Z)
| PosInfinity.

Definition JSNumber_eqb (a b : JSNumber) : bool :=
  match a, b with
  | Num x, Num y => x =? y
  | PosInfinity, PosInfinity => true
  | _, _ => false
  end.

(** [\d] *)
Definition is_digit (c : N) : bool := ((48 <=? c) && (c <=? 57))%N.

(** [[&?]] *)
Definition is_delim (c : N) : bool := ((c =? 38) || (c =? 63))%N.

(** Mathematical value of a run of decimal digits. *)
Definition decimal_value (ds : JSString) : Z :=
  fold_left (fun acc c => 10 * acc + (Z.of_N c - 48)) ds 0.

(** Round a non-negative integer to the nearest double, ties to even. *)
Definition round_to_double (n : Z) : JSNumber :=
  if n <? 2 ^ 53 then Num n
  else
    let e := Z.log2 n - 52 in
    let m := n / 2 ^ e in
    let r := n mod 2 ^ e in
    let half := 2 ^ (e - 1) in
    let m' := if (half <? r) || ((r =? half) && Z.odd m) then m + 1 else m in
    if 2 ^ 1024 <=? m' * 2 ^ e then PosInfinity else Num (m' * 2 ^ e).

(** [Number (ds)] for [ds] matched by [\d+]. *)
Definition Number (ds : JSString) : JSNumber :=
  round_to_double (decimal_value ds).

(** ** The pattern [/(^|[&?])c=(\d+)/] *)

(** Greedy [\d*] at the head of [s]. *)
Fixpoint digits_prefix (s : JSString) : JSString :=
  match s with
  | c :: r => if is_digit c then c :: digits_prefix r else []
  | [] => []
  end.

(** [c=(\d+)] anchored at the head of [s]; the result is group 2. *)
Definition match_key (s : JSString) : option JSString :=
  match s with
  | c1 :: c2 :: r =>
      if ((c1 =? 99) && (c2 =? 61))%N then
        match digits_prefix r with
        | [] => None
        | ds => Some ds
        end
      else None
  | _ => None
  end.

(** Leftmost match: at each position the alternative [^] is tried first
    (it succeeds at the start of the input only), then [[&?]]; when both
    fail the search moves one code unit to the right. *)
Fixpoint regex_search (at_start : bool) (s : JSString) : option JSString :=
  match (if at_start then match_key s else None) with
  | Some ds => Some ds
  | None =>
      match s with
      | [] => None
      | c :: r =>
          match (if is_delim c then match_key r else None) with
          | Some ds => Some ds
          | None => regex_search false r
          end
      end
  end.

(** [const match = text.match (/(^|[&?])c=(\d+)/);
     return match ? Number (match[2]) : null;]
    The two lines occur twice in [getDestinationChainId], once for each
    decoder. *)
Definition matchChainId (text : JSString) : option JSNumber :=
  match regex_search true text with
  | Some ds => Some (Number ds)
  | None => None
  end.

(** [extDataHex.replace (/^0x/, "")] *)
Definition strip0x (hex : string) : string :=
  match hex with
  | String "0" (String "x" r) => r
  | _ => hex
  end.

(** [getChunkSize] *)
Definition getChunkSize (chain : Chain) : Z :=
  if (chain =? "bsc")%string then 400
  else if (chain =? "polygon")%string then 1500
  else if ((chain =? "arbitrum") || (chain =? "optimism") || (chain =? "base"))%string
       then 4000
  else 3000.

(** ** Logs, decoded events and transfer records *)

(** What the adapter reads of a raw log entry. *)
Record Log := mkLog {
  transactionHash : string;
  log_blockNumber : Z;
  topics : list string;
  data : string
}.

(** [parsed.args] of a [BridgeExecuted] event. *)
Record BridgeExecuted := mkBridgeExecuted {
  sender : string;
  recipient : string;
  inputToken : string;
  outputToken : string;
  inputAmount : Z;
  extData : string
}.

Record TransferRecord := mkTransferRecord {
  txHash : string;
  blockNumber : Z;
  from : string;
  to : string;
  token : string;
  amount : Z;
  isDeposit : bool
}.

(** The argument of the SDK's [getLogs]. *)
Record GetLogsParams := mkGetLogsParams {
  gl_chain : Chain;
  gl_target : string;
  gl_fromBlock : Z;
  gl_toBlock : Z;
  gl_topics : list string
}.

(** One call of [getLogs] issued by the scanner, with what it returned
    ([inl e]: the call threw [e]). *)
Record Fetch (Err : Type) := mkFetch {
  request : GetLogsParams;
  response : Err + list Log
}.
Arguments mkFetch {Err}.
Arguments request {Err}.
Arguments response {Err}.

(** [end - start + 1] of a request. *)
Definition range_of (p : GetLogsParams) : Z := gl_toBlock p - gl_fromBlock p + 1.

Definition succeeded {Err : Type} (f : Fetch Err) : bool :=
  match response f with
  | inr _ => true
  | inl _ => false
  end.

(** A fetch that failed on a chunk of at most 50 blocks. *)
Definition gave_up {Err : Type} (f : Fetch Err) : bool :=
  match response f with
  | inr _ => false
  | inl _ => range_of (request f) <=? 50
  end.

(** The block windows of the fetches that returned logs, in order. *)
Fixpoint fetched_ranges {Err : Type} (fs : list (Fetch Err)) : list (Z * Z) :=
  match fs with
  | [] => []
  | f :: r =>
      if succeeded f
      then (gl_fromBlock (request f), gl_toBlock (request f)) :: fetched_ranges r
      else fetched_ranges r
  end.

(** The logs of the fetches that returned, in order. *)
Fixpoint fetched_logs {Err : Type} (fs : list (Fetch Err)) : list Log :=
  match fs with
  | [] => []
  | f :: r =>
      match response f with
      | inr logs => logs ++ fetched_logs r
      | inl _ => fetched_logs r
      end
  end.

(** [ranges] are non-empty, start at [a], follow one another without gap
    or overlap, and end at [b]. *)
Fixpoint tiles (ranges : list (Z * Z)) (a b : Z) : bool :=
  match ranges with
  | [] => a =? b + 1
  | (s, e) :: r => (s =? a) && (s <=? e) && tiles r (e + 1) b
  end.

(** The partition of [[fromBlock, toBlock]] into [n] consecutive chunks of
    [size] blocks, the last one cut at [toBlock]. *)
Definition chunks_of (size fromBlock toBlock : Z) (n : nat) : list (Z * Z) :=
  map (fun i => (fromBlock + Z.of_nat i * size,
                 Z.min (fromBlock + (Z.of_nat i + 1) * size - 1) toBlock))
      (seq 0 n).

(** Every failed fetch on more than 50 blocks is followed at once by a
    fetch from the same start block whose end is [start + floor (range / 2)];
    a failed fetch on at most 50 blocks is the last one. *)
Fixpoint halving {Err : Type} (fs : list (Fetch Err)) : Prop :=
  match fs with
  | [] => True
  | f :: r =>
      (succeeded f = false ->
       if range_of (request f) <=? 50 then r = []
       else exists g r', r = g :: r'
            /\ gl_fromBlock (request g) = gl_fromBlock (request f)
            /\ gl_toBlock (request g)
               = gl_fromBlock (request f) + range_of (request f) / 2
            /\ range_of (request g) < range_of (request f))
      /\ halving r
  end.

(** The largest window on which the shrink loop issues at most [k + 1]
    fetches: 50 blocks for one fetch, and a window of [2 * b - 1] blocks
    halves to one of [b]. *)
Fixpoint shrink_bound (k : nat) : Z :=
  match k with
  | O => 50
  | S k' => 2 * shrink_bound k' - 1
  end.

(** Number of chunks the [for] loop goes through. *)
Definition chunk_count (size fromBlock toBlock : Z) : nat :=
  Z.to_nat ((toBlock - fromBlock + size) / size).

(** Non-decreasing block numbers. *)
Definition ascending (blocks : list Z) : Prop := StronglySorted Z.le blocks.

(** *** The pattern, as the specification words it *)

(** [ds] is a maximal non-empty run of digits following [c=] at the head
    of [s]. *)
Definition key_text (s ds : JSString) : Prop :=
  exists post,
    s = [99%N; 61%N] ++ ds ++ post
    /\ ds <> []
    /\ Forall (fun c => is_digit c = true) ds
    /\ (forall c post', post = c :: post' -> is_digit c = false).

(** A [c=<digits>] key sits at index [i] of [text]: at the start of the
    string or immediately after a [&] or a [?]. *)
Definition key_at (text : JSString) (i : nat) (ds : JSString) : Prop :=
  match i with
  | O => True
  | S k => exists d, nth_error text k = Some d /\ is_delim d = true
  end
  /\ key_text (skipn i text) ds.

(** The same for the rest [s] of a string whose earlier positions the
    search has already tried ([at_start = false]): index 0 of [s] is then
    no candidate any more. *)
Definition key_from (at_start : bool) (s : JSString) (i : nat) (ds : JSString)
  : Prop :=
  match i with
  | O => at_start = true
  | S k => exists d, nth_error s k = Some d /\ is_delim d = true
  end
  /\ key_text (skipn i s) ds.

(** The first such key. *)
Definition first_key (text : JSString) (i : nat) (ds : JSString) : Prop :=
  key_at text i ds /\ forall j ds', key_at text j ds' -> (i <= j)%nat.

(** ** Sample collaborators

    Concrete stand-ins for the external libraries, used to run the adapter
    on examples.  The decoders agree with the libraries on ASCII payloads. *)

Module Sample.

Definition hex_digit (c : ascii) : option N :=
  let n := N_of_ascii c in
  if ((48 <=? n) && (n <=? 57))%N then Some (n - 48)%N
  else if ((97 <=? n) && (n <=? 102))%N then Some (n - 87)%N
  else if ((65 <=? n) && (n <=? 70))%N then Some (n - 55)%N
  else None.

(** The bytes of a string of hex digits; [None] when a character is no
    hex digit or their number is odd. *)
Fixpoint bytes_of_hex (s : string) : option (list N) :=
  match s with
  | EmptyString => Some []
  | String a (String b r) =>
      match hex_digit a, hex_digit b, bytes_of_hex r with
      | Some x, Some y, Some bs => Some ((16 * x + y)%N :: bs)
      | _, _, _ => None
      end
  | String _ EmptyString => None
  end.

(** The bytes of the longest prefix made of pairs of hex digits. *)
Fixpoint hex_prefix_bytes (s : string) : list N :=
  match s with
  | String a (String b r) =>
      match hex_digit a, hex_digit b with
      | Some x, Some y => (16 * x + y)%N :: hex_prefix_bytes r
      | _, _ => []
      end
  | _ => []
  end.

(** Strict decoding: throws unless the argument is [0x] followed by pairs
    of hex digits; a byte outside ASCII is rejected. *)
Definition toUtf8String (hex : string) : option JSString :=
  match hex with
  | String "0" (String "x" digits) =>
      match bytes_of_hex digits with
      | Some bs => if forallb (fun b => b <? 128)%N bs then Some bs else None
      | None => None
      end
  | _ => None
  end.

(** Lenient decoding: never throws; the bytes are those of the pairs of
    hex digits before the first character that is none, and a byte outside
    ASCII becomes U+FFFD. *)
Definition hexBufferToString (hex : string) : option JSString :=
  Some (map (fun b => if (b <? 128)%N then b else 65533%N) (hex_prefix_bytes hex)).

Definition TOPIC : string := "BridgeExecuted"%string.

(** Throws on a log that has not the topic and two indexed addresses;
    otherwise takes the two addresses from the topics and the whole data
    field as [extData].  An empty recipient topic stands for a value that
    could not be decoded: the result is returned, and reading its fields
    throws. *)
Definition parseLog (log : Log) : option (string + BridgeExecuted) :=
  match topics log with
  | [t; s; r] =>
      if (t =? TOPIC)%string
      then if (r =? "")%string
           then Some (inl "deferred error: recipient"%string)
           else Some (inr (mkBridgeExecuted s r "0xA0b8" "0xdAC1" 1000 (data log)))
      else None
  | _ => None
  end.

Definition bridge_log (tx : string) (block : Z) (ext : string) : Log :=
  mkLog tx block [TOPIC; "0xSender"; "0xRecipient"]%string ext.

(** A log of the contract whose recipient cannot be read, and one of
    another event. *)
Definition unreadable_log (tx : string) (block : Z) : Log :=
  mkLog tx block [TOPIC; "0xSender"; ""]%string "0x"%string.

Definition foreign_log (tx : string) (block : Z) : Log :=
  mkLog tx block ["Approval"; "0xSender"; "0xRecipient"]%string "0x"%string.

(** Hex of ["r=1&c=173&x=9"], ["xyz"] and ["c=56"]. *)
Definition ext_to_eni : string := "0x723d3126633d31373326783d39"%string.
Definition ext_xyz : string := "0x78797a"%string.
Definition ext_to_bsc : string := "0x633d3536"%string.

(** The events the contract emitted, by block. *)
Definition history : list Log :=
  [bridge_log "0xaa" 10 ext_to_eni;
   bridge_log "0xbb" 1600 ext_to_bsc;
   bridge_log "0xcc" 2500 ext_to_eni]%string.

Definition in_window (p : GetLogsParams) (l : Log) : bool :=
  (gl_fromBlock p <=? log_blockNumber l) && (log_blockNumber l <=? gl_toBlock p).

(** A log source that rejects windows of more than [limit] blocks; its
    state counts the queries served. *)
Definition limited (limit : Z) (p : GetLogsParams) (served : nat)
  : nat * (string + list Log) :=
  if limit <? range_of p
  then (S served, inl "query exceeds max block range"%string)
  else (S served, inr (filter (in_window p) history)).

(** A log source that is down. *)
Definition down (p : GetLogsParams) (served : nat) : nat * (string + list Log) :=
  (S served, inl "503"%string).

(** A log source that answers every query. *)
Definition healthy (p : GetLogsParams) (served : nat) : nat * (string + list Log) :=
  (S served, inr (filter (in_window p) history)).

End Sample.

(** A value together with the equation that names it, for the case
    analyses whose branch is needed by a termination argument. *)
Definition inspect {A : Type} (a : A) : {b : A | a = b} := exist _ a eq_refl.

(** ** The adapter *)

Section Adapter.

Set Default Proof Using "Type".

(** State of the external log source and the errors it raises. *)
Variables World Err : Type.

(** [getLogs] of the SDK: one query against the log source.  [inl e]
    stands for any exception raised inside the [try] block of
    [getLogsSafe]. *)
Variable getLogs : GetLogsParams -> World -> World * (Err + list Log).

(** [iface.getEventTopic ("BridgeExecuted")] *)
Variable BRIDGE_EXECUTED_TOPIC : string.

(** [iface.parseLog (log)] and the reading of [sender], [recipient],
    [inputToken], [inputAmount] and [extData] off [parsed.args] that follows
    it: [None] when [parseLog] throws, which the adapters catch;
    [Some (inl e)] when it returns and the reading throws [e], which no
    [catch] takes; [Some (inr args)] when the fields are read. *)
Variable parseLog : Log -> option (Err + BridgeExecuted).

(** [ethers.utils.toUtf8String]; [None] when it throws. *)
Variable toUtf8String : string -> option JSString.

(** [Buffer.from (_, "hex").toString ()]; [None] when it throws. *)
Variable hexBufferToString : string -> option JSString.

(** *** Event classifier *)

(** [getDestinationChainId] *)
Definition getDestinationChainId (extDataHex : string) : option JSNumber :=
  match toUtf8String extDataHex with
  | Some decoded => matchChainId decoded
  | None =>
      match hexBufferToString (strip0x extDataHex) with
      | Some ascii => matchChainId ascii
      | None => None
      end
  end.

(** The text the pattern is run on: the strict decoding, or the lenient
    one when the strict one throws; [None] when both throw. *)
Definition decoded_text (extDataHex : string) : option JSString :=
  match toUtf8String extDataHex with
  | Some decoded => Some decoded
  | None => hexBufferToString (strip0x extDataHex)
  end.

(** [isDestinationENI]: [getDestinationChainId (extDataHex) === 173]. *)
Definition isDestinationENI (extDataHex : string) : bool :=
  match getDestinationChainId extDataHex with
  | Some n => JSNumber_eqb n (Num 173)
  | None => false
  end.

(** The record pushed by both adapters. *)
Definition transfer_of (log : Log) (args : BridgeExecuted) (deposit : bool)
  : TransferRecord :=
  {| txHash := transactionHash log;
     blockNumber := log_blockNumber log;
     from := sender args;
     to := recipient args;
     token := inputToken args;
     amount := inputAmount args;
     isDeposit := deposit |}.

(** The [for (const log of logs)] loop of [inflowAdapter] and the
    [return events] after it; [events] is the array being filled.  The
    loop ends with [inl e] at the first log whose fields cannot be read. *)
Fixpoint inflow_loop (logs : list Log) (events : list TransferRecord)
  : Err + list TransferRecord :=
  match logs with
  | [] => inr events
  | log :: rest =>
      match parseLog log with
      | None => inflow_loop rest events
      | Some (inl e) => inl e
      | Some (inr args) =>
          if negb (isDestinationENI (extData args)) then inflow_loop rest events
          else inflow_loop rest (events ++ [transfer_of log args true])
      end
  end.

(** The [for (const log of logs)] loop of [outflowAdapter] and the
    [return events] after it. *)
Fixpoint outflow_loop (logs : list Log) (events : list TransferRecord)
  : Err + list TransferRecord :=
  match logs with
  | [] => inr events
  | log :: rest =>
      match parseLog log with
      | None => outflow_loop rest events
      | Some (inl e) => inl e
      | Some (inr args) =>
          if isDestinationENI (extData args) then outflow_loop rest events
          else outflow_loop rest (events ++ [transfer_of log args false])
      end
  end.

(** The logs whose fields are read, with the fields, in order. *)
Fixpoint readable (logs : list Log) : list (Log * BridgeExecuted) :=
  match logs with
  | [] => []
  | log :: rest =>
      match parseLog log with
      | Some (inr args) => (log, args) :: readable rest
      | _ => readable rest
      end
  end.

(** The error of the first log that parses and whose fields cannot be
    read. *)
Fixpoint first_unreadable (logs : list Log) : option Err :=
  match logs with
  | [] => None
  | log :: rest =>
      match parseLog log with
      | Some (inl e) => Some e
      | _ => first_unreadable rest
      end
  end.

(** The outcome of two passes run one after the other: the first error,
    or the records of both. *)
Definition then_records (r1 r2 : Err + list TransferRecord)
  : Err + list TransferRecord :=
  match r1 with
  | inl e => inl e
  | inr a =>
      match r2 with
      | inl e => inl e
      | inr b => inr (a ++ b)
      end
  end.

Definition to_eni (la : Log * BridgeExecuted) : bool :=
  isDestinationENI (extData (snd la)).

Definition record_of (deposit : bool) (la : Log * BridgeExecuted) : TransferRecord :=
  transfer_of (fst la) (snd la) deposit.

(** *** Range scanner *)

(** The object passed to [getLogs] for the window [[start, end_]]. *)
Definition query (chain : Chain) (start end_ : Z) : GetLogsParams :=
  mkGetLogsParams chain ORBITER_CONTRACT start end_ [BRIDGE_EXECUTED_TOPIC].

(** What a scan returns: the log source afterwards, the fetches issued
    in the order they were issued, and the logs or the error thrown. *)
Definition Scan : Type := World * list (Fetch Err) * (Err + list Log).

Definition record_fetch (f : Fetch Err) (r : Scan) : Scan :=
  let '(w, fs, res) := r in (w, f :: fs, res).

(** The [while (true)] loop of [getLogsSafe] for the chunk starting at
    [start], entered with the current [end_] and the logs accumulated so
    far. *)
Equations? shrink_loop (chain : Chain) (start end_ : Z) (allLogs : list Log)
    (w : World) : Scan
    by wf (Z.to_nat (end_ - start)) lt :=
  shrink_loop chain start end_ allLogs w
    with getLogs (query chain start end_) w => {
    | (w', inr logs) =>
        (w', [mkFetch (query chain start end_) (inr logs)],
         inr (allLogs ++ logs));
    | (w', inl e) with inspect (end_ - start + 1 <=? 50) => {
        | exist _ true _ =>
            (w', [mkFetch (query chain start end_) (inl e)],
             inl e);
        | exist _ false Hrange =>
            record_fetch
              (mkFetch (query chain start end_) (inl e))
              (shrink_loop chain start (start + (end_ - start + 1) / 2)
                           allLogs w') } }.
Proof.
  apply Z.leb_gt in Hrange.
  assert ((end_ - start + 1) / 2 < end_ - start)
    by (apply Z.div_lt_upper_bound; lia).
  lia.
Qed.

(** The [for] loop of [getLogsSafe], entered with the current [start]. *)
Equations? chunk_loop (chain : Chain) (toBlock start : Z) (allLogs : list Log)
    (w : World) : Scan
    by wf (Z.to_nat (toBlock - start + 1)) lt :=
  chunk_loop chain toBlock start allLogs w
    with inspect (start <=? toBlock) => {
    | exist _ false _ => (w, [], inr allLogs);
    | exist _ true Hle
        with shrink_loop chain start
               (Z.min (start + getChunkSize chain - 1) toBlock) allLogs w => {
        | (w', fs, inl e) => (w', fs, inl e);
        | (w', fs, inr allLogs') =>
            let '(w'', fs', res) :=
              chunk_loop chain toBlock (start + getChunkSize chain) allLogs' w'
            in (w'', fs ++ fs', res) } }.
Proof.
  apply Z.leb_le in Hle.
  assert (0 < getChunkSize chain)
    by (unfold getChunkSize;
        repeat match goal with |- context [if ?b then _ else _] => destruct b end;
        lia).
  lia.
Qed.

(** [getLogsSafe] *)
Definition getLogsSafe (chain : Chain) (fromBlock toBlock : Z) (w : World) : Scan :=
  chunk_loop chain toBlock fromBlock [] w.

(** The result of a scan that was entered with [acc] already collected. *)
Definition prepend_logs (acc : list Log) (r : Scan) : Scan :=
  match r with
  | (w, fs, inl e) => (w, fs, inl e)
  | (w, fs, inr logs) => (w, fs, inr (acc ++ logs))
  end.

(** [fs] is a run of the log source from [w] to [w']: each fetch is a
    call of [getLogs] on the state the previous one left. *)
Fixpoint replays (w : World) (fs : list (Fetch Err)) (w' : World) : Prop :=
  match fs with
  | [] => w = w'
  | f :: r => exists w1, getLogs (request f) w = (w1, response f) /\ replays w1 r w'
  end.

(** The log source returns, for a window, entries of that window sorted by
    block number. *)
Definition sorted_source : Prop :=
  forall p w w' logs,
    getLogs p w = (w', inr logs) ->
    ascending (map log_blockNumber logs)
    /\ Forall (fun l => gl_fromBlock p <= log_blockNumber l <= gl_toBlock p) logs.

(** The log source returns, for a window, entries of that window. *)
Definition windowed_source : Prop :=
  forall p w w' logs,
    getLogs p w = (w', inr logs) ->
    Forall (fun l => gl_fromBlock p <= log_blockNumber l <= gl_toBlock p) logs.

(** *** Adapters *)

(** What an adapter callable returns. *)
Definition Run : Type := World * list (Fetch Err) * (Err + list TransferRecord).

(** [inflowAdapter (chain)] *)
Definition inflowAdapter (chain : Chain) (fromBlock toBlock : Z) (w : World) : Run :=
  match getLogsSafe chain fromBlock toBlock w with
  | (w', fs, inl e) => (w', fs, inl e)
  | (w', fs, inr logs) => (w', fs, inflow_loop logs [])
  end.

(** [outflowAdapter ()] *)
Definition outflowAdapter (fromBlock toBlock : Z) (w : World) : Run :=
  match getLogsSafe ENI_CHAIN fromBlock toBlock w with
  | (w', fs, inl e) => (w', fs, inl e)
  | (w', fs, inr logs) => (w', fs, outflow_loop logs [])
  end.

(** [adapter]: the entries in the order the object literal lists them. *)
Definition adapter : list (string * (Z -> Z -> World -> Run)) :=
  map (fun c => (c, inflowAdapter c)) SOURCE_CHAINS
    ++ [("eni"%string, outflowAdapter)].

(** The shape of a trace with respect to giving up: a scan that throws
    ends on the fetch that gave up, and nothing gave up before. *)
Definition throw_shape (r : Scan) : Prop :=
  match r with
  | (_, fs, inl e) =>
      exists fs0 req,
        fs = fs0 ++ [mkFetch req (inl e)]
        /\ range_of req <= 50
        /\ existsb gave_up fs0 = false
  | (_, fs, inr _) => existsb gave_up fs = false
  end.

(** * Properties *)

(** ** The two loops, one iteration at a time *)

Lemma shrink_loop_body chain start end_ allLogs w :
  shrink_loop chain start end_ allLogs w =
  match getLogs (query chain start end_) w with
  | (w', inr logs) =>
      (w', [mkFetch (query chain start end_) (inr logs)], inr (allLogs ++ logs))
  | (w', inl e) =>
      if end_ - start + 1 <=? 50
      then (w', [mkFetch (query chain start end_) (inl e)], inl e)
      else record_fetch (mkFetch (query chain start end_) (inl e))
             (shrink_loop chain start (start + (end_ - start + 1) / 2) allLogs w')
  end.
Proof.
  funelim (shrink_loop chain start end_ allLogs w);
    repeat match goal with
           | H : getLogs _ _ = _ |- _ => rewrite H
           | H : (_ <=? _) = _ |- _ => rewrite H
           end; reflexivity.
Qed.

Lemma chunk_loop_body chain toBlock start allLogs w :
  chunk_loop chain toBlock start allLogs w =
  if start <=? toBlock then
    match shrink_loop chain start (Z.min (start + getChunkSize chain - 1) toBlock)
            allLogs w with
    | (w', fs, inl e) => (w', fs, inl e)
    | (w', fs, inr allLogs') =>
        let '(w'', fs', res) :=
          chunk_loop chain toBlock (start + getChunkSize chain) allLogs' w'
        in (w'', fs ++ fs', res)
    end
  else (w, [], inr allLogs).
Proof.
  funelim (chunk_loop chain toBlock start allLogs w);
    repeat match goal with
           | H : (_ <=? _) = _ |- _ => rewrite H
           | H : shrink_loop _ _ _ _ _ = _ |- _ => rewrite H
           end; reflexivity.
Qed.

Lemma getChunkSize_pos chain : 0 < getChunkSize chain.
Proof.
  unfold getChunkSize.
  repeat match goal with |- context [if ?b then _ else _] => destruct b end; lia.
Qed.

(** Induction over the attempts of one chunk. *)
Lemma shrink_loop_rect chain start
    (P : Z -> list Log -> World -> Scan -> Prop) :
  (forall end_ allLogs w w' logs,
      getLogs (query chain start end_) w = (w', inr logs) ->
      P end_ allLogs w
        (w', [mkFetch (query chain start end_) (inr logs)], inr (allLogs ++ logs))) ->
  (forall end_ allLogs w w' e,
      getLogs (query chain start end_) w = (w', inl e) ->
      end_ - start + 1 <= 50 ->
      P end_ allLogs w (w', [mkFetch (query chain start end_) (inl e)], inl e)) ->
  (forall end_ allLogs w w' e w'' fs res,
      getLogs (query chain start end_) w = (w', inl e) ->
      50 < end_ - start + 1 ->
      shrink_loop chain start (start + (end_ - start + 1) / 2) allLogs w'
        = (w'', fs, res) ->
      P (start + (end_ - start + 1) / 2) allLogs w' (w'', fs, res) ->
      P end_ allLogs w (w'', mkFetch (query chain start end_) (inl e) :: fs, res)) ->
  forall end_ allLogs w, P end_ allLogs w (shrink_loop chain start end_ allLogs w).
Proof.
  intros Hok Hstop Hshrink end_ allLogs.
  remember (Z.to_nat (end_ - start)) as n eqn:Hn.
  revert end_ Hn.
  induction n as [n IH] using lt_wf_ind.
  intros end_ Hn w.
  rewrite shrink_loop_body.
  destruct (getLogs (query chain start end_) w) as [w' [e | logs]] eqn:Hget.
  - destruct (end_ - start + 1 <=? 50) eqn:Hr.
    + apply Hstop; [assumption | now apply Z.leb_le].
    + apply Z.leb_gt in Hr.
      destruct (shrink_loop chain start (start + (end_ - start + 1) / 2) allLogs w')
        as [[w'' fs] res] eqn:Hrec.
      cbn [record_fetch].
      apply Hshrink with (w' := w'); try assumption.
      rewrite <- Hrec.
      apply (IH (Z.to_nat (start + (end_ - start + 1) / 2 - start))); [| reflexivity].
      assert ((end_ - start + 1) / 2 < end_ - start)
        by (apply Z.div_lt_upper_bound; lia).
      lia.
  - now apply Hok.
Qed.

(** Induction over the chunks of a scan. *)
Lemma chunk_loop_rect chain toBlock
    (P : Z -> list Log -> World -> Scan -> Prop) :
  (forall start allLogs w, toBlock < start -> P start allLogs w (w, [], inr allLogs)) ->
  (forall start allLogs w w' fs e,
      start <= toBlock ->
      shrink_loop chain start (Z.min (start + getChunkSize chain - 1) toBlock)
        allLogs w = (w', fs, inl e) ->
      P start allLogs w (w', fs, inl e)) ->
  (forall start allLogs w w' fs allLogs' w'' fs' res,
      start <= toBlock ->
      shrink_loop chain start (Z.min (start + getChunkSize chain - 1) toBlock)
        allLogs w = (w', fs, inr allLogs') ->
      chunk_loop chain toBlock (start + getChunkSize chain) allLogs' w'
        = (w'', fs', res) ->
      P (start + getChunkSize chain) allLogs' w' (w'', fs', res) ->
      P start allLogs w (w'', fs ++ fs', res)) ->
  forall start allLogs w, P start allLogs w (chunk_loop chain toBlock start allLogs w).
Proof.
  intros Hdone Hthrow Hnext start.
  remember (Z.to_nat (toBlock - start + 1)) as n eqn:Hn.
  revert start Hn.
  induction n as [n IH] using lt_wf_ind.
  intros start Hn allLogs w.
  rewrite chunk_loop_body.
  destruct (start <=? toBlock) eqn:Hle.
  - apply Z.leb_le in Hle.
    destruct (shrink_loop chain start
                (Z.min (start + getChunkSize chain - 1) toBlock) allLogs w)
      as [[w' fs] [e | allLogs']] eqn:Hchunk.
    + now apply Hthrow.
    + destruct (chunk_loop chain toBlock (start + getChunkSize chain) allLogs' w')
        as [[w'' fs'] res] eqn:Hrec.
      apply Hnext with (w' := w') (allLogs' := allLogs'); try assumption.
      rewrite <- Hrec.
      apply (IH (Z.to_nat (toBlock - (start + getChunkSize chain) + 1)));
        [| reflexivity].
      pose proof (getChunkSize_pos chain). lia.
  - apply Z.leb_gt in Hle. now apply Hdone.
Qed.

(** ** When the scan throws *)

Lemma range_of_query chain start end_ :
  range_of (query chain start end_) = end_ - start + 1.
Proof. reflexivity. Qed.

Lemma shrink_loop_throw_shape chain start end_ allLogs w :
  throw_shape (shrink_loop chain start end_ allLogs w).
Proof.
  revert end_ allLogs w.
  apply shrink_loop_rect; intros; cbn [throw_shape].
  - reflexivity.
  - exists [], (query chain start end_). auto.
  - assert (Hf : gave_up (mkFetch (query chain start end_) (@inl Err (list Log) e))
                 = false).
    { unfold gave_up; cbn [response request]. rewrite range_of_query.
      apply Z.leb_gt. lia. }
    cbn [throw_shape] in *.
    destruct res as [e' | logs].
    + destruct H2 as (fs0 & req & -> & Hle & Hno).
      exists (mkFetch (query chain start end_) (inl e) :: fs0), req.
      repeat split; auto.
      cbn [existsb]. now rewrite Hf, Hno.
    + cbn [existsb]. now rewrite Hf, H2.
Qed.

Lemma chunk_loop_throw_shape chain toBlock start allLogs w :
  throw_shape (chunk_loop chain toBlock start allLogs w).
Proof.
  revert start allLogs w.
  apply chunk_loop_rect; intros.
  - reflexivity.
  - rewrite <- H0. apply shrink_loop_throw_shape.
  - pose proof (shrink_loop_throw_shape chain start
                  (Z.min (start + getChunkSize chain - 1) toBlock) allLogs w) as Hs.
    rewrite H0 in Hs. cbn [throw_shape] in *.
    destruct res as [e | logs].
    + destruct H2 as (fs0 & req & -> & Hle & Hno).
      exists (fs ++ fs0), req. rewrite app_assoc. repeat split; auto.
      rewrite existsb_app, Hs, Hno. reflexivity.
    + rewrite existsb_app, Hs, H2. reflexivity.
Qed.

(** C3. The scan throws exactly when some fetch failed on a chunk of at
    most 50 blocks; the error thrown is the one that fetch raised, that
    fetch is the last one the scan issued (no shrink follows it), and it is
    the only fetch of the scan that failed on so small a chunk. *)
Theorem getLogsSafe_throws_iff_gave_up chain fromBlock toBlock w w' fs res
    (Hscan : getLogsSafe chain fromBlock toBlock w = (w', fs, res)) :
  ((exists e, res = inl e)
   <-> Exists (fun f => succeeded f = false /\ range_of (request f) <= 50) fs)
  /\ (forall e, res = inl e ->
      exists fs0 req,
        fs = fs0 ++ [mkFetch req (inl e)]
        /\ range_of req <= 50
        /\ Forall (fun f => succeeded f = true \/ 50 < range_of (request f)) fs0).
Proof.
  pose proof (chunk_loop_throw_shape chain toBlock fromBlock [] w) as Hshape.
  unfold getLogsSafe in Hscan. rewrite Hscan in Hshape. cbn [throw_shape] in Hshape.
  assert (Hgave : forall l : list (Fetch Err),
             existsb gave_up l = false ->
             Forall (fun f => succeeded f = true \/ 50 < range_of (request f)) l).
  { intros l Hl. apply Forall_forall. intros f Hin.
    destruct (succeeded f) eqn:Hs; [now left | right].
    assert (Hg : gave_up f = false).
    { destruct (gave_up f) eqn:Hg; [| reflexivity].
      rewrite <- Hl. symmetry. apply existsb_exists. eauto. }
    unfold gave_up in Hg. unfold succeeded in Hs.
    destruct (response f); [| discriminate]. now apply Z.leb_gt in Hg. }
  destruct res as [e | logs].
  - destruct Hshape as (fs0 & req & -> & Hle & Hno). split.
    + split; [intros _ | eauto].
      apply Exists_app. right. constructor. cbn. auto.
    + intros e' [= <-]. exists fs0, req. auto.
  - split.
    + split; [intros [e [=]] |].
      intros Hex. apply Exists_exists in Hex. destruct Hex as (f & Hin & Hs & Hle).
      apply Hgave in Hshape. rewrite Forall_forall in Hshape.
      destruct (Hshape f Hin) as [Hs' | Hr]; [congruence | lia].
    + intros e [=].
Qed.

(** ** The fetches of one chunk *)

Lemma halving_failed_cons (f g : Fetch Err) (r : list (Fetch Err)) :
  succeeded f = false ->
  50 < range_of (request f) ->
  gl_fromBlock (request g) = gl_fromBlock (request f) ->
  gl_toBlock (request g) = gl_fromBlock (request f) + range_of (request f) / 2 ->
  halving (g :: r) ->
  halving (f :: g :: r).
Proof.
  intros Hf Hr Hs He Hh. split; [| exact Hh].
  intros _. apply Z.leb_gt in Hr as Hr'. rewrite Hr'.
  exists g, r. repeat split; try assumption.
  unfold range_of in *. rewrite Hs, He.
  assert ((gl_toBlock (request f) - gl_fromBlock (request f) + 1) / 2
          < gl_toBlock (request f) - gl_fromBlock (request f))
    by (apply Z.div_lt_upper_bound; lia).
  lia.
Qed.

(** One chunk: failed fetches on ever smaller windows from the same start
    block, then a last fetch that either returns or gives up. *)
Lemma shrink_loop_trace chain start end_ allLogs w w' fs res :
  shrink_loop chain start end_ allLogs w = (w', fs, res) ->
  exists fs0 e' resp,
    fs = fs0 ++ [mkFetch (query chain start e') resp]
    /\ Forall (fun f => succeeded f = false /\ 50 < range_of (request f)
                       /\ gl_fromBlock (request f) = start) fs0
    /\ hd_error (map request fs) = Some (query chain start end_)
    /\ halving fs
    /\ (fs0 = [] -> e' = end_)
    /\ (fs0 <> [] -> start < e' < end_)
    /\ match res, resp with
       | inl e, inl e2 => e = e2 /\ e' - start + 1 <= 50
       | inr l, inr logs => l = allLogs ++ logs
       | _, _ => False
       end.
Proof.
  revert w' fs res. revert end_ allLogs w.
  apply (shrink_loop_rect chain start
           (fun end_ allLogs w r => forall w' fs res, r = (w', fs, res) -> _)).
  - intros end_ allLogs w w1 logs Hget w' fs res [= <- <- <-].
    exists [], end_, (inr logs). cbn.
    repeat split; auto; try congruence.
  - intros end_ allLogs w w1 e Hget Hr w' fs res [= <- <- <-].
    exists [], end_, (inl e). cbn.
    repeat split; auto; try congruence.
    intros _. apply Z.leb_le in Hr. unfold range_of; cbn. now rewrite Hr.
  - intros end_ allLogs w w1 e w2 fs1 res1 Hget Hr Hrec IH w' fs res [= <- <- <-].
    destruct (IH _ _ _ eq_refl)
      as (fs0 & e' & resp & -> & Hfs0 & Hhd & Hhalv & Hnil & Hcons & Hres).
    exists (mkFetch (query chain start end_) (inl e) :: fs0), e', resp.
    assert (Hlt : (end_ - start + 1) / 2 < end_ - start)
      by (apply Z.div_lt_upper_bound; lia).
    split; [reflexivity |].
    split; [constructor; [cbn; repeat split; auto | exact Hfs0] |].
    split; [reflexivity |].
    split.
    { destruct (fs0 ++ [mkFetch (query chain start e') resp]) as [| g r] eqn:Hg;
        [discriminate |].
      cbn in Hhd. injection Hhd as Hreq.
      apply halving_failed_cons; cbn; auto; rewrite Hreq; reflexivity. }
    split; [discriminate |].
    split.
    { intros _.
      assert (1 <= (end_ - start + 1) / 2)
        by (apply Z.div_le_lower_bound; lia).
      destruct fs0 as [| f0 fs0'].
      - rewrite Hnil by reflexivity. lia.
      - assert (start < e' < start + (end_ - start + 1) / 2)
          by (apply Hcons; discriminate).
        lia. }
    + exact Hres.
Qed.

Lemma fetched_failed_prefix (fs0 suffix : list (Fetch Err)) :
  Forall (fun f => succeeded f = false) fs0 ->
  fetched_ranges (fs0 ++ suffix) = fetched_ranges suffix
  /\ fetched_logs (fs0 ++ suffix) = fetched_logs suffix.
Proof.
  induction 1 as [| f r Hf _ IH]; [auto |].
  cbn. unfold succeeded in Hf |- *.
  destruct (response f); [exact IH | discriminate].
Qed.

(** The outcome of one chunk that returned: the window that was fetched
    in the end, and the logs it gave. *)
Lemma shrink_loop_returns chain start end_ allLogs w w' fs l :
  start <= end_ ->
  shrink_loop chain start end_ allLogs w = (w', fs, inr l) ->
  exists e',
    start <= e' <= end_
    /\ (forallb succeeded fs = true -> fs <> [] /\ e' = end_)
    /\ (forallb succeeded fs = false -> e' < end_)
    /\ fetched_ranges fs = [(start, e')]
    /\ l = allLogs ++ fetched_logs fs
    /\ Forall (fun f => gl_fromBlock (request f) = start) fs
    /\ (forallb succeeded fs = true ->
        map request fs = [query chain start end_]).
Proof.
  intros Hle Hrun.
  destruct (shrink_loop_trace _ _ _ _ _ _ _ _ Hrun)
    as (fs0 & e' & resp & -> & Hfs0 & Hhd & _ & Hnil & Hcons & Hres).
  destruct resp as [e | logs]; [contradiction |]. subst l.
  assert (Hranges : forall suffix : list (Fetch Err),
             fetched_ranges (fs0 ++ suffix) = fetched_ranges suffix
             /\ fetched_logs (fs0 ++ suffix) = fetched_logs suffix).
  { intros suffix. apply fetched_failed_prefix.
    eapply Forall_impl; [| exact Hfs0]. cbn. intros f (Hf & _). exact Hf. }
  exists e'.
  split; [destruct fs0; [rewrite Hnil by reflexivity; lia |
                         assert (start < e' < end_) by (apply Hcons; discriminate);
                         lia] |].
  split.
  { intros Hall. destruct fs0 as [| f r].
    - split; [discriminate | now apply Hnil].
    - inversion Hfs0 as [| ? ? (Hf & _) _]; subst. cbn in Hall.
      rewrite Hf in Hall. discriminate. }
  split.
  { intros Hsome. destruct fs0 as [| f r].
    - cbn in Hsome. discriminate.
    - apply Hcons. discriminate. }
  split; [destruct (Hranges [mkFetch (query chain start e') (inr logs)]) as [-> _];
          reflexivity |].
  split; [destruct (Hranges [mkFetch (query chain start e') (inr logs)]) as [_ ->];
          cbn; now rewrite app_nil_r |].
  split.
  { apply Forall_app. split.
    - eapply Forall_impl; [| exact Hfs0]. cbn. intros f (_ & _ & Hs). exact Hs.
    - repeat constructor. }
  intros Hall. destruct fs0 as [| f r].
  - cbn. rewrite Hnil by reflexivity. reflexivity.
  - inversion Hfs0 as [| ? ? (Hf & _) _]; subst. cbn in Hall.
    rewrite Hf in Hall. discriminate.
Qed.

Lemma fetched_ranges_app (fs fs' : list (Fetch Err)) :
  fetched_ranges (fs ++ fs') = fetched_ranges fs ++ fetched_ranges fs'.
Proof.
  induction fs as [| f r IH]; [reflexivity |].
  cbn. destruct (succeeded f); cbn; now rewrite IH.
Qed.

Lemma fetched_logs_app (fs fs' : list (Fetch Err)) :
  fetched_logs (fs ++ fs') = fetched_logs fs ++ fetched_logs fs'.
Proof.
  induction fs as [| f r IH]; [reflexivity |].
  cbn. destruct (response f); rewrite IH; [reflexivity | now rewrite app_assoc].
Qed.

Lemma halving_app (fs fs' : list (Fetch Err)) :
  halving fs ->
  (forall fs0 f, fs = fs0 ++ [f] -> succeeded f = true) ->
  halving fs' ->
  halving (fs ++ fs').
Proof.
  intros Hfs Hlast Hfs'. induction fs as [| f r IH]; [exact Hfs' |].
  destruct Hfs as [Hf Hr]. cbn. split.
  - intros Hfail. specialize (Hf Hfail).
    destruct (range_of (request f) <=? 50).
    + subst r. rewrite (Hlast [] f eq_refl) in Hfail. discriminate.
    + destruct Hf as (g & r' & -> & Hg). exists g, (r' ++ fs'). auto.
  - apply IH; [exact Hr |].
    intros fs0 x ->. apply (Hlast (f :: fs0) x). reflexivity.
Qed.

(** Every trace of a scan has the shrinking discipline. *)
Lemma chunk_loop_halving chain toBlock start allLogs w w' fs res :
  chunk_loop chain toBlock start allLogs w = (w', fs, res) -> halving fs.
Proof.
  revert w' fs res. revert start allLogs w.
  apply (chunk_loop_rect chain toBlock
           (fun start allLogs w r => forall w' fs res, r = (w', fs, res) -> _)).
  - intros start allLogs w _ w' fs res [= <- <- <-]. exact I.
  - intros start allLogs w w1 fs1 e _ Hrun w' fs res [= <- <- <-].
    destruct (shrink_loop_trace _ _ _ _ _ _ _ _ Hrun) as (? & ? & ? & _ & _ & _ & H & _).
    exact H.
  - intros start allLogs w w1 fs1 allLogs' w2 fs2 res2 _ Hrun _ IH w' fs res
           [= <- <- <-].
    destruct (shrink_loop_trace _ _ _ _ _ _ _ _ Hrun)
      as (fs0 & e' & resp & -> & _ & _ & Hh & _ & _ & Hres).
    apply halving_app; [exact Hh | | exact (IH _ _ _ eq_refl)].
    intros fs3 f Heq. apply app_inj_tail in Heq. destruct Heq as [_ <-].
    destruct resp; [contradiction | reflexivity].
Qed.

(** ** Termination of the shrink-retry loop *)

Lemma halving_failed_sorted (fs : list (Fetch Err)) :
  halving fs ->
  Forall (fun f => succeeded f = false) fs ->
  Sorted (fun f g => range_of (request g) < range_of (request f)) fs.
Proof.
  induction fs as [| f r IH]; intros Hh Hall; [constructor |].
  destruct Hh as [Hf Hr]. inversion Hall as [| ? ? Hfail Hrest]; subst.
  constructor; [now apply IH |].
  specialize (Hf Hfail).
  destruct (range_of (request f) <=? 50).
  - subst r. constructor.
  - destruct Hf as (g & r' & -> & _ & _ & Hlt). now constructor.
Qed.

(** C4. In every scan a fetch that fails on more than 50 blocks is
    followed at once by a fetch from the same start block ending at
    [start + floor (range / 2)], a strictly smaller window, and a fetch that
    fails on at most 50 blocks is the last one.  When the log source fails
    every query, the scan of a non-empty range returns: it throws the error
    of its last fetch, whose window has at most 50 blocks, after fetches on
    strictly decreasing windows that all start at [fromBlock]. *)
Theorem shrink_retry_terminates chain fromBlock toBlock w :
  (forall w' fs res,
      getLogsSafe chain fromBlock toBlock w = (w', fs, res) -> halving fs)
  /\ ((forall p w0, exists w1 e, getLogs p w0 = (w1, inl e)) ->
      fromBlock <= toBlock ->
      exists w' fs last e,
        getLogsSafe chain fromBlock toBlock w = (w', fs ++ [last], inl e)
        /\ response last = inl e
        /\ range_of (request last) <= 50
        /\ Forall (fun f => succeeded f = false /\ 50 < range_of (request f)) fs
        /\ Forall (fun f => gl_fromBlock (request f) = fromBlock) (fs ++ [last])
        /\ Sorted (fun f g => range_of (request g) < range_of (request f))
             (fs ++ [last])).
Proof.
  split.
  { intros w' fs res Hscan. eapply chunk_loop_halving. exact Hscan. }
  intros Hdown Hle.
  unfold getLogsSafe. rewrite chunk_loop_body.
  apply Z.leb_le in Hle as Hleb. rewrite Hleb.
  set (end_ := Z.min (fromBlock + getChunkSize chain - 1) toBlock).
  assert (Hthrows : forall e0 l w0 w' fs res,
             shrink_loop chain fromBlock e0 l w0 = (w', fs, res) ->
             exists e, res = inl e).
  { intros e0 l w0. revert e0 l w0.
    apply (shrink_loop_rect chain fromBlock
             (fun e0 l w0 r => forall w' fs res, r = (w', fs, res) -> _)).
    - intros e0 l w0 w1 logs Hget. destruct (Hdown (query chain fromBlock e0) w0)
        as (w2 & e & Hget'). congruence.
    - intros e0 l w0 w1 e _ _ w' fs res [= <- <- <-]. eauto.
    - intros e0 l w0 w1 e w2 fs1 res1 _ _ _ IH w' fs res [= <- <- <-].
      exact (IH _ _ _ eq_refl). }
  destruct (shrink_loop chain fromBlock end_ [] w) as [[w' fs] res] eqn:Hrun.
  destruct (Hthrows _ _ _ _ _ _ Hrun) as [e ->].
  destruct (shrink_loop_trace _ _ _ _ _ _ _ _ Hrun)
    as (fs0 & e' & resp & -> & Hfs0 & _ & Hh & _ & _ & Hres).
  destruct resp as [e2 | logs]; [| contradiction].
  destruct Hres as [<- Hsmall].
  exists w', fs0, (mkFetch (query chain fromBlock e') (inl e)), e.
  split; [reflexivity |].
  split; [reflexivity |].
  split; [exact Hsmall |].
  split; [eapply Forall_impl; [| exact Hfs0]; cbn; intros f (H1 & H2 & _); now split |].
  split.
  - apply Forall_app. split; [| repeat constructor].
    eapply Forall_impl; [| exact Hfs0]. cbn. now intros f (_ & _ & H3).
  - apply halving_failed_sorted; [exact Hh |].
    apply Forall_app. split; [| repeat constructor].
    eapply Forall_impl; [| exact Hfs0]. cbn. now intros f (H1 & _).
Qed.

(** ** Scans in which no fetch fails *)

Lemma chunks_of_S size fromBlock toBlock n :
  chunks_of size fromBlock toBlock (S n)
  = (fromBlock, Z.min (fromBlock + size - 1) toBlock)
      :: chunks_of size (fromBlock + size) toBlock n.
Proof.
  unfold chunks_of. rewrite <- cons_seq, <- seq_shift. cbn [map].
  rewrite map_map. f_equal.
  - f_equal; [lia | f_equal; lia].
  - apply map_ext. intros i. f_equal; [lia | f_equal; lia].
Qed.

Lemma chunk_count_S size fromBlock toBlock :
  0 < size ->
  fromBlock <= toBlock ->
  Z.to_nat ((toBlock - fromBlock + size) / size)
  = S (Z.to_nat ((toBlock - (fromBlock + size) + size) / size)).
Proof.
  intros Hsize Hle.
  replace (toBlock - fromBlock + size) with (toBlock - fromBlock + 1 * size) by lia.
  rewrite Z.div_add by lia.
  replace (toBlock - (fromBlock + size) + size) with (toBlock - fromBlock) by lia.
  assert (0 <= (toBlock - fromBlock) / size) by (apply Z.div_pos; lia).
  lia.
Qed.

Lemma chunk_count_0 size fromBlock toBlock :
  0 < size ->
  toBlock < fromBlock ->
  Z.to_nat ((toBlock - fromBlock + size) / size) = 0%nat.
Proof.
  intros Hsize Hlt.
  destruct (Z_lt_le_dec (toBlock - fromBlock + size) 0) as [Hneg | Hpos].
  - assert ((toBlock - fromBlock + size) / size < 0)
      by (apply Z.div_lt_upper_bound; lia).
    lia.
  - rewrite Z.div_small by lia. reflexivity.
Qed.

(** The number of chunks is the ceiling of the range length over the
    chunk size. *)
Lemma chunk_count_ceiling size fromBlock toBlock :
  0 < size ->
  fromBlock <= toBlock ->
  let n := Z.of_nat (Z.to_nat ((toBlock - fromBlock + size) / size)) in
  (n - 1) * size < toBlock - fromBlock + 1 <= n * size.
Proof.
  intros Hsize Hle n.
  assert (Hq : 0 <= (toBlock - fromBlock + size) / size) by (apply Z.div_pos; lia).
  unfold n. rewrite Z2Nat.id by exact Hq.
  pose proof (Z.div_mod (toBlock - fromBlock + size) size ltac:(lia)) as Hdm.
  pose proof (Z.mod_pos_bound (toBlock - fromBlock + size) size Hsize) as Hm.
  nia.
Qed.

Lemma tiles_chunks_of size toBlock n :
  0 < size ->
  forall fromBlock,
    (Z.of_nat (S n) - 1) * size < toBlock - fromBlock + 1 <= Z.of_nat (S n) * size ->
    tiles (chunks_of size fromBlock toBlock (S n)) fromBlock toBlock = true.
Proof.
  intros Hsize. induction n as [| n IH]; intros fromBlock Hn.
  - rewrite chunks_of_S. cbn [tiles chunks_of map seq].
    rewrite Z.eqb_refl, Z.min_r by lia. cbn.
    apply andb_true_intro. split; [apply Z.leb_le; lia | apply Z.eqb_refl].
  - rewrite chunks_of_S. cbn [tiles].
    rewrite Z.eqb_refl, Z.min_l by lia.
    replace (fromBlock + size - 1 + 1) with (fromBlock + size) by lia.
    rewrite IH by lia. cbn.
    rewrite andb_true_r. apply Z.leb_le. lia.
Qed.

(** When no fetch fails, the fetches are those of the partition. *)
Lemma chunk_loop_no_failure chain toBlock start allLogs w w' fs res :
  chunk_loop chain toBlock start allLogs w = (w', fs, res) ->
  forallb succeeded fs = true ->
  map request fs
  = map (fun r => query chain (fst r) (snd r))
      (chunks_of (getChunkSize chain) start toBlock
         (Z.to_nat ((toBlock - start + getChunkSize chain) / getChunkSize chain)))
  /\ exists logs, res = inr logs.
Proof.
  pose proof (getChunkSize_pos chain) as Hsize.
  revert w' fs res. revert start allLogs w.
  apply (chunk_loop_rect chain toBlock
           (fun start allLogs w r =>
              forall w' fs res, r = (w', fs, res) -> forallb succeeded fs = true -> _)).
  - intros start allLogs w Hlt w' fs res [= <- <- <-] _.
    rewrite chunk_count_0 by assumption. split; [reflexivity | eauto].
  - intros start allLogs w w1 fs1 e Hle Hrun w' fs res [= <- <- <-] Hall.
    destruct (shrink_loop_trace _ _ _ _ _ _ _ _ Hrun)
      as (fs0 & e' & resp & -> & _ & _ & _ & _ & _ & Hres).
    destruct resp as [e2 | logs]; [| contradiction].
    rewrite forallb_app in Hall. cbn in Hall.
    rewrite andb_false_r in Hall. discriminate.
  - intros start allLogs w w1 fs1 allLogs' w2 fs2 res2 Hle Hrun _ IH w' fs res
           [= <- <- <-] Hall.
    rewrite forallb_app in Hall. apply andb_prop in Hall. destruct Hall as [H1 H2].
    destruct (IH _ _ _ eq_refl H2) as [Hreq Hres].
    assert (Hle' : start <= Z.min (start + getChunkSize chain - 1) toBlock) by lia.
    destruct (shrink_loop_returns _ _ _ _ _ _ _ _ Hle' Hrun)
      as (e' & _ & _ & _ & _ & _ & _ & Hone).
    rewrite chunk_count_S by assumption.
    rewrite chunks_of_S, map_app, (Hone H1), Hreq. split; [reflexivity | exact Hres].
Qed.

Lemma fetched_ranges_all_succeeded (fs : list (Fetch Err)) :
  forallb succeeded fs = true ->
  fetched_ranges fs
  = map (fun p => (gl_fromBlock p, gl_toBlock p)) (map request fs).
Proof.
  induction fs as [| f r IH]; [reflexivity |].
  cbn. intros Hall. apply andb_prop in Hall. destruct Hall as [-> Hr].
  now rewrite IH.
Qed.

Lemma chunks_of_bounds size fromBlock toBlock n :
  0 < size ->
  (Z.of_nat n - 1) * size < toBlock - fromBlock + 1 ->
  Forall (fun r => 1 <= snd r - fst r + 1 <= size)
         (chunks_of size fromBlock toBlock n).
Proof.
  intros Hsize Hn. apply Forall_forall. intros r Hin.
  unfold chunks_of in Hin. apply in_map_iff in Hin.
  destruct Hin as (i & <- & Hi). apply in_seq in Hi. cbn [fst snd].
  assert (Z.of_nat i * size <= (Z.of_nat n - 1) * size) by nia.
  lia.
Qed.

(** The fetches of a scan in which no fetch fails. *)
Lemma scan_without_failure chain fromBlock toBlock w w' fs res :
  getLogsSafe chain fromBlock toBlock w = (w', fs, res) ->
  fromBlock <= toBlock ->
  Forall (fun f => succeeded f = true) fs ->
  let size := getChunkSize chain in
  let n := Z.of_nat (List.length fs) in
  (n - 1) * size < toBlock - fromBlock + 1 <= n * size
  /\ map request fs
     = map (fun r => query chain (fst r) (snd r))
         (chunks_of size fromBlock toBlock (List.length fs))
  /\ Forall (fun f => 1 <= range_of (request f) <= size) fs
  /\ tiles (fetched_ranges fs) fromBlock toBlock = true
  /\ exists logs, res = inr logs.
Proof.
  intros Hscan Hle Hall size n.
  pose proof (getChunkSize_pos chain) as Hsize.
  assert (Hallb : forallb succeeded fs = true)
    by (apply forallb_forall; rewrite Forall_forall in Hall; exact Hall).
  destruct (chunk_loop_no_failure _ _ _ _ _ _ _ _ Hscan Hallb) as [Hreq Hres].
  fold size in Hreq.
  assert (Hlen : List.length fs = Z.to_nat ((toBlock - fromBlock + size) / size)).
  { rewrite <- (length_map request fs), Hreq, length_map.
    unfold chunks_of. now rewrite length_map, length_seq. }
  pose proof (chunk_count_ceiling size fromBlock toBlock Hsize Hle) as Hceil.
  cbv zeta in Hceil. rewrite <- Hlen in Hceil. fold n in Hceil.
  rewrite <- Hlen in Hreq.
  assert (Hpairs : map (fun p => (gl_fromBlock p, gl_toBlock p)) (map request fs)
                   = chunks_of size fromBlock toBlock (List.length fs)).
  { rewrite Hreq, map_map. cbn.
    rewrite <- (map_id (chunks_of _ _ _ _)) at 2.
    apply map_ext. now intros [a b]. }
  split; [exact Hceil |].
  split; [exact Hreq |].
  split.
  { pose proof (chunks_of_bounds size fromBlock toBlock (List.length fs) Hsize
                  ltac:(fold n; lia)) as Hb.
    rewrite <- Hpairs, map_map in Hb. rewrite Forall_map in Hb. exact Hb. }
  split; [| exact Hres].
  rewrite fetched_ranges_all_succeeded, Hpairs by exact Hallb.
  destruct (List.length fs) as [| k] eqn:Hk; [subst n; cbn in Hceil; lia |].
  apply tiles_chunks_of; [exact Hsize | exact Hceil].
Qed.

(** C8. The chunk-size table, and the fetches of a scan in which no fetch
    fails: their number is the ceiling of the range length over the chunk
    size, they are the chunks of the partition in order, each covers at
    least one and at most [chunkSize] blocks, and together they tile the
    range. *)
Theorem chunk_sizes_and_fetch_count :
  (getChunkSize "bsc"%string = 400
   /\ getChunkSize "polygon"%string = 1500
   /\ getChunkSize "arbitrum"%string = 4000
   /\ getChunkSize "optimism"%string = 4000
   /\ getChunkSize "base"%string = 4000
   /\ getChunkSize "ethereum"%string = 3000
   /\ forall chain,
       ~ In chain ["bsc"; "polygon"; "arbitrum"; "optimism"; "base"]%string ->
       getChunkSize chain = 3000)
  /\ forall chain fromBlock toBlock w w' fs res,
      getLogsSafe chain fromBlock toBlock w = (w', fs, res) ->
      fromBlock <= toBlock ->
      Forall (fun f => succeeded f = true) fs ->
      let size := getChunkSize chain in
      let n := Z.of_nat (List.length fs) in
      (n - 1) * size < toBlock - fromBlock + 1 <= n * size
      /\ map request fs
         = map (fun r => query chain (fst r) (snd r))
             (chunks_of size fromBlock toBlock (List.length fs))
      /\ Forall (fun f => 1 <= range_of (request f) <= size) fs
      /\ tiles (fetched_ranges fs) fromBlock toBlock = true
      /\ exists logs, res = inr logs.
Proof.
  split; [| exact scan_without_failure].
  repeat split; try reflexivity.
  intros chain Hnot. unfold getChunkSize.
  repeat match goal with
         | |- context [(chain =? ?s)%string] =>
             destruct (String.eqb_spec chain s) as [-> | _];
             [exfalso; apply Hnot; cbn; auto 10 |]
         end.
  reflexivity.
Qed.

(** ** The trace is the run of the log source *)

Lemma replays_app w fs w1 fs' w' :
  replays w fs w1 -> replays w1 fs' w' -> replays w (fs ++ fs') w'.
Proof.
  revert w. induction fs as [| f r IH]; intros w; cbn.
  - now intros ->.
  - intros (w2 & Hget & Hr) Hr'. exists w2. split; [exact Hget | now apply IH].
Qed.

Lemma shrink_loop_replays chain start end_ allLogs w w' fs res :
  shrink_loop chain start end_ allLogs w = (w', fs, res) -> replays w fs w'.
Proof.
  revert w' fs res. revert end_ allLogs w.
  apply (shrink_loop_rect chain start
           (fun end_ allLogs w r => forall w' fs res, r = (w', fs, res) -> _)).
  - intros end_ allLogs w w1 logs Hget w' fs res [= <- <- <-]. cbn. eauto.
  - intros end_ allLogs w w1 e Hget _ w' fs res [= <- <- <-]. cbn. eauto.
  - intros end_ allLogs w w1 e w2 fs1 res1 Hget _ _ IH w' fs res [= <- <- <-].
    cbn. exists w1. split; [exact Hget | exact (IH _ _ _ eq_refl)].
Qed.

Lemma chunk_loop_replays chain toBlock start allLogs w w' fs res :
  chunk_loop chain toBlock start allLogs w = (w', fs, res) -> replays w fs w'.
Proof.
  revert w' fs res. revert start allLogs w.
  apply (chunk_loop_rect chain toBlock
           (fun start allLogs w r => forall w' fs res, r = (w', fs, res) -> _)).
  - intros start allLogs w _ w' fs res [= <- <- <-]. reflexivity.
  - intros start allLogs w w1 fs1 e _ Hrun w' fs res [= <- <- <-].
    eapply shrink_loop_replays. exact Hrun.
  - intros start allLogs w w1 fs1 allLogs' w2 fs2 res2 _ Hrun _ IH w' fs res
           [= <- <- <-].
    eapply replays_app; [eapply shrink_loop_replays; exact Hrun |].
    exact (IH _ _ _ eq_refl).
Qed.

Lemma replays_sorted_source w fs w' :
  sorted_source ->
  replays w fs w' ->
  Forall (fun f => forall logs,
              response f = inr logs ->
              ascending (map log_blockNumber logs)
              /\ Forall (fun l => gl_fromBlock (request f) <= log_blockNumber l
                                  <= gl_toBlock (request f)) logs) fs.
Proof.
  intros Hsrc. revert w. induction fs as [| f r IH]; intros w; cbn; [constructor |].
  intros (w1 & Hget & Hr). constructor; [| now apply (IH w1)].
  intros logs Hresp. rewrite Hresp in Hget. exact (Hsrc _ _ _ _ Hget).
Qed.

(** ** Order of the fetches and of the result *)

Lemma StronglySorted_app {A : Type} (R : A -> A -> Prop) (l1 l2 : list A) :
  StronglySorted R l1 ->
  StronglySorted R l2 ->
  (forall x y, In x l1 -> In y l2 -> R x y) ->
  StronglySorted R (l1 ++ l2).
Proof.
  intros H1 H2 Hcross. induction H1 as [| x l1 Hs IH Hx]; [exact H2 |].
  cbn. constructor.
  - apply IH. intros a b Ha Hb. apply Hcross; [now right | exact Hb].
  - apply Forall_app. split; [exact Hx |].
    apply Forall_forall. intros y Hy. apply Hcross; [now left | exact Hy].
Qed.

Lemma shrink_loop_starts chain start end_ allLogs w w' fs res :
  shrink_loop chain start end_ allLogs w = (w', fs, res) ->
  Forall (fun f => gl_fromBlock (request f) = start) fs
  /\ (forall e, res = inl e -> fetched_ranges fs = [] /\ fetched_logs fs = []).
Proof.
  intros Hrun.
  destruct (shrink_loop_trace _ _ _ _ _ _ _ _ Hrun)
    as (fs0 & e' & resp & -> & Hfs0 & _ & _ & _ & _ & Hres).
  split.
  - apply Forall_app. split; [| repeat constructor].
    eapply Forall_impl; [| exact Hfs0]. cbn. now intros f (_ & _ & H3).
  - intros e ->. destruct resp as [e2 | logs]; [| contradiction].
    apply (fetched_failed_prefix fs0 [mkFetch (query chain start e') (inl e2)]).
    eapply Forall_impl; [| exact Hfs0]. cbn. now intros f (H1 & _).
Qed.

Lemma chunk_loop_order chain toBlock start allLogs w w' fs res :
  chunk_loop chain toBlock start allLogs w = (w', fs, res) ->
  Forall (fun f => start <= gl_fromBlock (request f)) fs
  /\ ascending (map (fun f => gl_fromBlock (request f)) fs)
  /\ Forall (fun r => start <= fst r /\ fst r <= snd r /\ snd r <= toBlock)
            (fetched_ranges fs)
  /\ StronglySorted (fun a b => snd a < fst b) (fetched_ranges fs)
  /\ (forall l, res = inr l -> l = allLogs ++ fetched_logs fs).
Proof.
  pose proof (getChunkSize_pos chain) as Hsize.
  assert (Hconst : forall (c : Z) (l : list (Fetch Err)),
             Forall (fun f => gl_fromBlock (request f) = c) l ->
             ascending (map (fun f => gl_fromBlock (request f)) l)
             /\ Forall (fun f => c <= gl_fromBlock (request f)) l).
  { intros c l Hl. split.
    - induction Hl as [| f r Hf Hr IH]; cbn; constructor; [exact IH |].
      apply Forall_map. eapply Forall_impl; [| exact Hr]. cbn. lia.
    - eapply Forall_impl; [| exact Hl]. cbn. lia. }
  revert w' fs res. revert start allLogs w.
  apply (chunk_loop_rect chain toBlock
           (fun start allLogs w r => forall w' fs res, r = (w', fs, res) -> _)).
  - intros start allLogs w _ w' fs res [= <- <- <-]. cbn.
    repeat split; try constructor.
    intros l [= <-]. now rewrite app_nil_r.
  - intros start allLogs w w1 fs1 e _ Hrun w' fs res [= <- <- <-].
    destruct (shrink_loop_starts _ _ _ _ _ _ _ _ Hrun) as [Hst Hnone].
    destruct (Hnone e eq_refl) as [-> _].
    destruct (Hconst _ _ Hst) as [Hasc Hge].
    split; [exact Hge |]. split; [exact Hasc |].
    split; [constructor |]. split; [constructor |]. discriminate.
  - intros start allLogs w w1 fs1 allLogs' w2 fs2 res2 Hle Hrun _ IH w' fs res
           [= <- <- <-].
    destruct (IH _ _ _ eq_refl) as (Hge2 & Hasc2 & Hin2 & Hsorted2 & Hlogs2).
    destruct (shrink_loop_starts _ _ _ _ _ _ _ _ Hrun) as [Hst _].
    destruct (Hconst _ _ Hst) as [Hasc Hge].
    assert (Hle' : start <= Z.min (start + getChunkSize chain - 1) toBlock) by lia.
    destruct (shrink_loop_returns _ _ _ _ _ _ _ _ Hle' Hrun)
      as (e' & He' & _ & _ & Hranges & Hl & _ & _).
    split.
    { apply Forall_app. split; [exact Hge |].
      eapply Forall_impl; [| exact Hge2]. cbn. lia. }
    split.
    { rewrite map_app. apply StronglySorted_app; [exact Hasc | exact Hasc2 |].
      intros x y Hx Hy. apply in_map_iff in Hx, Hy.
      destruct Hx as (f & <- & Hf). destruct Hy as (g & <- & Hg).
      rewrite Forall_forall in Hst, Hge2.
      rewrite (Hst f Hf). specialize (Hge2 g Hg). cbn in Hge2. lia. }
    rewrite fetched_ranges_app, Hranges.
    split.
    { cbn. constructor; [cbn; lia |].
      eapply Forall_impl; [| exact Hin2]. cbn. lia. }
    split.
    { cbn. constructor; [exact Hsorted2 |].
      eapply Forall_impl; [| exact Hin2]. cbn. lia. }
    intros l ->. rewrite (Hlogs2 _ eq_refl), Hl, fetched_logs_app.
    now rewrite app_assoc.
Qed.

(** ** The classification loops, one log at a time *)

Lemma inflow_loop_acc logs events :
  inflow_loop logs events = then_records (inr events) (inflow_loop logs []).
Proof.
  revert events. induction logs as [| log rest IH]; intros events; cbn.
  - now rewrite app_nil_r.
  - destruct (parseLog log) as [[e | args] |]; [reflexivity | | apply IH].
    destruct (isDestinationENI (extData args)); cbn [negb]; [| apply IH].
    rewrite IH, (IH [_]).
    destruct (inflow_loop rest []); cbn; [reflexivity | now rewrite <- app_assoc].
Qed.

Lemma outflow_loop_acc logs events :
  outflow_loop logs events = then_records (inr events) (outflow_loop logs []).
Proof.
  revert events. induction logs as [| log rest IH]; intros events; cbn.
  - now rewrite app_nil_r.
  - destruct (parseLog log) as [[e | args] |]; [reflexivity | | apply IH].
    destruct (isDestinationENI (extData args)); [apply IH |].
    rewrite IH, (IH [_]).
    destruct (outflow_loop rest []); cbn; [reflexivity | now rewrite <- app_assoc].
Qed.

Lemma inflow_loop_one log :
  inflow_loop [log] []
  = match parseLog log with
    | Some (inr args) =>
        if isDestinationENI (extData args)
        then inr [transfer_of log args true] else inr []
    | Some (inl e) => inl e
    | None => inr []
    end.
Proof.
  cbn. destruct (parseLog log) as [[e | args] |]; try reflexivity;
    now destruct (isDestinationENI (extData args)).
Qed.

Lemma outflow_loop_one log :
  outflow_loop [log] []
  = match parseLog log with
    | Some (inr args) =>
        if isDestinationENI (extData args)
        then inr [] else inr [transfer_of log args false]
    | Some (inl e) => inl e
    | None => inr []
    end.
Proof.
  cbn. destruct (parseLog log) as [[e | args] |]; try reflexivity;
    now destruct (isDestinationENI (extData args)).
Qed.

Lemma inflow_loop_cons log rest :
  inflow_loop (log :: rest) []
  = then_records (inflow_loop [log] []) (inflow_loop rest []).
Proof.
  rewrite inflow_loop_one. cbn [inflow_loop].
  destruct (parseLog log) as [[e | args] |]; try reflexivity.
  - destruct (isDestinationENI (extData args)); cbn [negb].
    + apply inflow_loop_acc.
    + now destruct (inflow_loop rest []).
  - now destruct (inflow_loop rest []).
Qed.

Lemma outflow_loop_cons log rest :
  outflow_loop (log :: rest) []
  = then_records (outflow_loop [log] []) (outflow_loop rest []).
Proof.
  rewrite outflow_loop_one. cbn [outflow_loop].
  destruct (parseLog log) as [[e | args] |]; try reflexivity.
  - destruct (isDestinationENI (extData args)).
    + now destruct (outflow_loop rest []).
    + apply outflow_loop_acc.
  - now destruct (outflow_loop rest []).
Qed.

Lemma then_records_inr r1 r2 records :
  then_records r1 r2 = inr records ->
  exists a b, r1 = inr a /\ r2 = inr b /\ records = a ++ b.
Proof.
  destruct r1 as [e | a]; [discriminate |].
  destruct r2 as [e | b]; [discriminate |].
  intros [= <-]. eauto.
Qed.

Lemma inflow_loop_In logs records r :
  inflow_loop logs [] = inr records ->
  In r records ->
  exists log args,
    In log logs /\ parseLog log = Some (inr args)
    /\ isDestinationENI (extData args) = true
    /\ r = transfer_of log args true.
Proof.
  revert records. induction logs as [| log rest IH]; intros records.
  - intros [= <-] [].
  - rewrite inflow_loop_cons. intros Hrun Hin.
    apply then_records_inr in Hrun. destruct Hrun as (a & b & Ha & Hb & ->).
    rewrite inflow_loop_one in Ha.
    apply in_app_or in Hin. destruct Hin as [Hin | Hin].
    + destruct (parseLog log) as [[e | args] |] eqn:Hp; [discriminate | |].
      * destruct (isDestinationENI (extData args)) eqn:Hd;
          injection Ha as <-; [| destruct Hin].
        destruct Hin as [<- | []]. exists log, args. cbn. auto.
      * injection Ha as <-. destruct Hin.
    + destruct (IH b Hb Hin) as (l & args & Hl & H). exists l, args. cbn. auto.
Qed.

Lemma outflow_loop_In logs records r :
  outflow_loop logs [] = inr records ->
  In r records ->
  exists log args,
    In log logs /\ parseLog log = Some (inr args)
    /\ isDestinationENI (extData args) = false
    /\ r = transfer_of log args false.
Proof.
  revert records. induction logs as [| log rest IH]; intros records.
  - intros [= <-] [].
  - rewrite outflow_loop_cons. intros Hrun Hin.
    apply then_records_inr in Hrun. destruct Hrun as (a & b & Ha & Hb & ->).
    rewrite outflow_loop_one in Ha.
    apply in_app_or in Hin. destruct Hin as [Hin | Hin].
    + destruct (parseLog log) as [[e | args] |] eqn:Hp; [discriminate | |].
      * destruct (isDestinationENI (extData args)) eqn:Hd;
          injection Ha as <-; [destruct Hin |].
        destruct Hin as [<- | []]. exists log, args. cbn. auto.
      * injection Ha as <-. destruct Hin.
    + destruct (IH b Hb Hin) as (l & args & Hl & H). exists l, args. cbn. auto.
Qed.

(** Records come out in the order of the logs they are made from. *)
Lemma loops_keep_order logs :
  ascending (map log_blockNumber logs) ->
  (forall records,
      inflow_loop logs [] = inr records -> ascending (map blockNumber records))
  /\ (forall records,
        outflow_loop logs [] = inr records -> ascending (map blockNumber records)).
Proof.
  induction logs as [| log rest IH].
  - intros _. split; intros records [= <-]; constructor.
  - cbn [map]. intros Hs. apply StronglySorted_inv in Hs. destruct Hs as [Hrest Hhd].
    destruct (IH Hrest) as [IHin IHout].
    assert (Hfrom : forall l, In l rest -> log_blockNumber log <= log_blockNumber l).
    { intros l Hl. rewrite Forall_forall in Hhd. apply Hhd. now apply in_map. }
    split; intros records Hrun.
    + rewrite inflow_loop_cons in Hrun. apply then_records_inr in Hrun.
      destruct Hrun as (a & b & Ha & Hb & ->). rewrite inflow_loop_one in Ha.
      assert (Hb' : Forall (fun r => log_blockNumber log <= blockNumber r) b).
      { apply Forall_forall. intros r Hr.
        destruct (inflow_loop_In _ _ _ Hb Hr) as (l & args & Hl & _ & _ & ->).
        cbn. auto. }
      destruct (parseLog log) as [[e | args] |]; [discriminate | |].
      * destruct (isDestinationENI (extData args)); injection Ha as <-; cbn;
          [| now apply IHin].
        constructor; [now apply IHin | now apply Forall_map].
      * injection Ha as <-. now apply IHin.
    + rewrite outflow_loop_cons in Hrun. apply then_records_inr in Hrun.
      destruct Hrun as (a & b & Ha & Hb & ->). rewrite outflow_loop_one in Ha.
      assert (Hb' : Forall (fun r => log_blockNumber log <= blockNumber r) b).
      { apply Forall_forall. intros r Hr.
        destruct (outflow_loop_In _ _ _ Hb Hr) as (l & args & Hl & _ & _ & ->).
        cbn. auto. }
      destruct (parseLog log) as [[e | args] |]; [discriminate | |].
      * destruct (isDestinationENI (extData args)); injection Ha as <-; cbn;
          [now apply IHout |].
        constructor; [now apply IHout | now apply Forall_map].
      * injection Ha as <-. now apply IHout.
Qed.

Lemma fetched_logs_within (fs : list (Fetch Err)) :
  Forall (fun f => forall logs,
              response f = inr logs ->
              ascending (map log_blockNumber logs)
              /\ Forall (fun l => gl_fromBlock (request f) <= log_blockNumber l
                                  <= gl_toBlock (request f)) logs) fs ->
  Forall (fun l => Exists (fun r => fst r <= log_blockNumber l <= snd r)
                          (fetched_ranges fs))
         (fetched_logs fs).
Proof.
  induction 1 as [| f r Hf _ IH]; [constructor |].
  cbn. unfold succeeded. destruct (response f) as [e | logs]; [exact IH |].
  apply Forall_app. split.
  - destruct (Hf logs eq_refl) as [_ Hin].
    eapply Forall_impl; [| exact Hin]. cbn. intros l Hl. now constructor.
  - eapply Forall_impl; [| exact IH]. cbn. intros l Hl. now constructor 2.
Qed.

Lemma fetched_logs_ascending (fs : list (Fetch Err)) :
  Forall (fun f => forall logs,
              response f = inr logs ->
              ascending (map log_blockNumber logs)
              /\ Forall (fun l => gl_fromBlock (request f) <= log_blockNumber l
                                  <= gl_toBlock (request f)) logs) fs ->
  StronglySorted (fun a b => snd a < fst b) (fetched_ranges fs) ->
  ascending (map log_blockNumber (fetched_logs fs)).
Proof.
  intros Hsrc. pose proof (fetched_logs_within fs Hsrc) as Hwithin.
  induction Hsrc as [| f r Hf Hr IH]; [constructor |].
  cbn in *. unfold succeeded in *.
  destruct (response f) as [e | logs]; [now apply IH |].
  intros Hs. apply StronglySorted_inv in Hs. destruct Hs as [Hs Hhd].
  destruct (Hf logs eq_refl) as [Hsorted Hin].
  apply Forall_app in Hwithin. destruct Hwithin as [_ Hrest].
  assert (Hrest' : Forall (fun l => Exists (fun rg => fst rg <= log_blockNumber l <= snd rg)
                                          (fetched_ranges r)) (fetched_logs r))
    by (now apply fetched_logs_within).
  rewrite map_app. apply StronglySorted_app; [exact Hsorted | now apply IH |].
  intros x y Hx Hy. apply in_map_iff in Hx, Hy.
  destruct Hx as (lx & <- & Hlx). destruct Hy as (ly & <- & Hly).
  rewrite Forall_forall in Hin, Hrest', Hhd.
  specialize (Hin lx Hlx). specialize (Hrest' ly Hly).
  apply Exists_exists in Hrest'. destruct Hrest' as (rg & Hrg & Hb).
  specialize (Hhd rg Hrg). cbn in Hhd. lia.
Qed.

(** C9. The fetches of a scan are consecutive calls of the log source;
    their start blocks never decrease, and the windows that returned logs
    are non-empty, inside the range, strictly ascending and disjoint.  The scan returns the logs of those
    windows, concatenated in that order, each window's logs as the source
    returned them.  When the source returns the entries of a window sorted by
    block number, the returned logs, and the records either adapter returns
    for them, are non-decreasing by block number. *)
Theorem scan_is_ordered chain fromBlock toBlock w w' fs res
    (Hscan : getLogsSafe chain fromBlock toBlock w = (w', fs, res)) :
  replays w fs w'
  /\ ascending (map (fun f => gl_fromBlock (request f)) fs)
  /\ Forall (fun r => fromBlock <= fst r /\ fst r <= snd r /\ snd r <= toBlock)
            (fetched_ranges fs)
  /\ StronglySorted (fun a b => snd a < fst b) (fetched_ranges fs)
  /\ forall logs,
      res = inr logs ->
      logs = fetched_logs fs
      /\ inflowAdapter chain fromBlock toBlock w = (w', fs, inflow_loop logs [])
      /\ (sorted_source ->
          ascending (map log_blockNumber logs)
          /\ (forall records,
                inflow_loop logs [] = inr records ->
                ascending (map blockNumber records))
          /\ (forall records,
                outflow_loop logs [] = inr records ->
                ascending (map blockNumber records))).
Proof.
  pose proof (chunk_loop_replays _ _ _ _ _ _ _ _ Hscan) as Hrep.
  destruct (chunk_loop_order _ _ _ _ _ _ _ _ Hscan)
    as (_ & Hasc & Hin & Hdisj & Hlogs).
  split; [exact Hrep |]. split; [exact Hasc |]. split; [exact Hin |].
  split; [exact Hdisj |].
  intros logs ->. specialize (Hlogs logs eq_refl). cbn in Hlogs. subst logs.
  split; [reflexivity |].
  split; [unfold inflowAdapter; now rewrite Hscan |].
  intros Hsrc.
  assert (Hsorted : ascending (map log_blockNumber (fetched_logs fs))).
  { apply fetched_logs_ascending; [| exact Hdisj].
    eapply replays_sorted_source; eassumption. }
  split; [exact Hsorted |]. now apply loops_keep_order.
Qed.

(** C10. On an empty range ([fromBlock > toBlock]) the scanner and both
    adapters, hence every callable of [adapter], return the empty sequence:
    no fetch is issued, the log source is left as it was, and nothing is
    thrown. *)
Theorem empty_range_returns_nothing chain fromBlock toBlock w
    (Hempty : toBlock < fromBlock) :
  getLogsSafe chain fromBlock toBlock w = (w, [], inr [])
  /\ inflowAdapter chain fromBlock toBlock w = (w, [], inr [])
  /\ outflowAdapter fromBlock toBlock w = (w, [], inr [])
  /\ Forall (fun entry => snd entry fromBlock toBlock w = (w, [], inr [])) adapter.
Proof.
  assert (Hscan : forall c, getLogsSafe c fromBlock toBlock w = (w, [], inr [])).
  { intros c. unfold getLogsSafe. rewrite chunk_loop_body.
    apply Z.leb_gt in Hempty. now rewrite Hempty. }
  assert (Hin : forall c, inflowAdapter c fromBlock toBlock w = (w, [], inr []))
    by (intros c; unfold inflowAdapter; now rewrite Hscan).
  assert (Hout : outflowAdapter fromBlock toBlock w = (w, [], inr []))
    by (unfold outflowAdapter; now rewrite Hscan).
  split; [apply Hscan |]. split; [apply Hin |]. split; [exact Hout |].
  unfold adapter. apply Forall_app. split.
  - apply Forall_map. apply Forall_forall. intros c _. apply Hin.
  - repeat constructor. exact Hout.
Qed.

(** ** Coverage of the range *)

(** A scan that returns covers the range exactly when none of its fetches
    failed: a chunk that was shrunk leaves the blocks after its shrunk end,
    up to the end of the chunk, unfetched. *)
Lemma chunk_loop_tiles_no_failure chain toBlock start allLogs w w' fs res :
  chunk_loop chain toBlock start allLogs w = (w', fs, res) ->
  forall logs a,
    res = inr logs ->
    tiles (fetched_ranges fs) a toBlock = true ->
    forallb succeeded fs = true
    /\ (start <= toBlock -> a = start)
    /\ (toBlock < start -> a = toBlock + 1).
Proof.
  pose proof (getChunkSize_pos chain) as Hsize.
  revert w' fs res. revert start allLogs w.
  apply (chunk_loop_rect chain toBlock
           (fun start allLogs w r =>
              forall w' fs res, r = (w', fs, res) ->
              forall (logs : list Log) a,
                res = inr logs ->
                tiles (fetched_ranges fs) a toBlock = true ->
                forallb succeeded fs = true
                /\ (start <= toBlock -> a = start)
                /\ (toBlock < start -> a = toBlock + 1))).
  - intros start allLogs w Hlt w' fs res [= <- <- <-] logs a _. cbn.
    intros Ha. apply Z.eqb_eq in Ha. repeat split; lia.
  - intros start allLogs w w1 fs1 e _ _ w' fs res [= <- <- <-] logs a [=].
  - intros start allLogs w w1 fs1 allLogs' w2 fs2 res2 Hle Hrun _ IH w' fs res
           [= <- <- <-] logs a -> Ht.
    assert (Hle' : start <= Z.min (start + getChunkSize chain - 1) toBlock) by lia.
    destruct (shrink_loop_returns _ _ _ _ _ _ _ _ Hle' Hrun)
      as (e' & He' & _ & Hshrunk & Hranges & _).
    rewrite fetched_ranges_app, Hranges in Ht. cbn in Ht.
    apply andb_prop in Ht. destruct Ht as [Ht Hrest].
    apply andb_prop in Ht. destruct Ht as [Ha _]. apply Z.eqb_eq in Ha.
    destruct (IH _ _ _ eq_refl logs (e' + 1) eq_refl Hrest) as (Hall2 & Hin & Hout).
    assert (He : e' = Z.min (start + getChunkSize chain - 1) toBlock)
      by (destruct (Z_le_gt_dec (start + getChunkSize chain) toBlock);
          [specialize (Hin ltac:(lia)) | specialize (Hout ltac:(lia))]; lia).
    split; [| split; lia].
    rewrite forallb_app, Hall2, andb_true_r.
    destruct (forallb succeeded fs1) eqn:Hall1; [reflexivity |].
    specialize (Hshrunk eq_refl). lia.
Qed.

Lemma getLogsSafe_covers_iff_no_failure chain fromBlock toBlock w w' fs logs :
  fromBlock <= toBlock ->
  getLogsSafe chain fromBlock toBlock w = (w', fs, inr logs) ->
  tiles (fetched_ranges fs) fromBlock toBlock = true
  <-> forallb succeeded fs = true.
Proof.
  intros Hle Hscan. split.
  - intros Ht.
    now destruct (chunk_loop_tiles_no_failure _ _ _ _ _ _ _ _ Hscan logs _ eq_refl Ht).
  - intros Hall.
    assert (HF : Forall (fun f : Fetch Err => succeeded f = true) fs)
      by (apply Forall_forall; now apply forallb_forall).
    now destruct (scan_without_failure _ _ _ _ _ _ _ Hscan Hle HF)
      as (_ & _ & _ & Ht & _).
Qed.

(** ** The pattern finds the first key *)

Lemma digits_prefix_spec s :
  exists post,
    s = digits_prefix s ++ post
    /\ Forall (fun c => is_digit c = true) (digits_prefix s)
    /\ (forall c post', post = c :: post' -> is_digit c = false).
Proof.
  induction s as [| c r (post & Hr & Hall & Hstop)]; cbn.
  - exists []. repeat split; [constructor | discriminate].
  - destruct (is_digit c) eqn:Hc.
    + exists post. cbn. split; [now f_equal |]. split; [now constructor | exact Hstop].
    + exists (c :: r). cbn. split; [reflexivity |]. split; [constructor |].
      now intros c' post' [= <- <-].
Qed.

Lemma digits_prefix_run ds post :
  Forall (fun c => is_digit c = true) ds ->
  (forall c post', post = c :: post' -> is_digit c = false) ->
  digits_prefix (ds ++ post) = ds.
Proof.
  intros Hall Hstop. induction Hall as [| c r Hc _ IH]; cbn.
  - destruct post as [| c post']; [reflexivity |].
    cbn. now rewrite (Hstop c post' eq_refl).
  - now rewrite Hc, IH.
Qed.

Lemma match_key_iff s ds : match_key s = Some ds <-> key_text s ds.
Proof.
  unfold match_key, key_text. split.
  - destruct s as [| c1 [| c2 r]]; try discriminate.
    destruct ((c1 =? 99) && (c2 =? 61))%N eqn:Hc; [| discriminate].
    apply andb_prop in Hc. destruct Hc as [H1 H2].
    apply N.eqb_eq in H1, H2. subst c1 c2.
    destruct (digits_prefix_spec r) as (post & Hr & Hall & Hstop).
    destruct (digits_prefix r) as [| d ds'] eqn:Hd; [discriminate |].
    intros [= <-]. exists post. cbn. split; [now rewrite Hr at 1 |].
    split; [discriminate | split; assumption].
  - intros (post & -> & Hne & Hall & Hstop). cbn.
    rewrite (digits_prefix_run ds post Hall Hstop).
    destruct ds; [contradiction | reflexivity].
Qed.

Lemma key_from_here b s ds : key_from b s 0 ds <-> b = true /\ match_key s = Some ds.
Proof. unfold key_from. cbn. now rewrite match_key_iff. Qed.

Lemma key_from_next b c r ds :
  key_from b (c :: r) 1 ds <-> is_delim c = true /\ match_key r = Some ds.
Proof.
  unfold key_from. cbn. rewrite match_key_iff. split.
  - intros [(d & [= <-] & Hd) Hk]. auto.
  - intros [Hd Hk]. eauto.
Qed.

Lemma key_from_later b c r j ds :
  key_from b (c :: r) (S (S j)) ds <-> key_from false r (S j) ds.
Proof. reflexivity. Qed.

Lemma key_from_not_start s ds : ~ key_from false s 0 ds.
Proof. intros [[=] _]. Qed.

(** What the search returns is the first key, if there is one. *)
Lemma regex_search_spec s :
  forall b,
    match regex_search b s with
    | Some ds =>
        exists i, key_from b s i ds /\ forall j ds', key_from b s j ds' -> (i <= j)%nat
    | None => forall i ds, ~ key_from b s i ds
    end.
Proof.
  induction s as [| c r IH]; intros b.
  - destruct b; cbn; intros i ds [_ (post & Hk & _)]; now destruct i.
  - cbn [regex_search].
    destruct (if b then match_key (c :: r) else None) as [ds |] eqn:Hhere.
    { exists 0%nat. split; [| intros; lia].
      apply key_from_here. destruct b; [auto | discriminate]. }
    assert (Hno0 : forall ds, ~ key_from b (c :: r) 0 ds).
    { intros ds Hk. apply key_from_here in Hk. destruct Hk as [-> Hk]. congruence. }
    destruct (if is_delim c then match_key r else None) as [ds |] eqn:Hnext.
    { exists 1%nat. split.
      - apply key_from_next. destruct (is_delim c); [auto | discriminate].
      - intros [| j] ds' Hk; [now apply Hno0 in Hk | lia]. }
    assert (Hno1 : forall ds, ~ key_from b (c :: r) 1 ds).
    { intros ds Hk. apply key_from_next in Hk. destruct Hk as [Hd Hk].
      rewrite Hd in Hnext. congruence. }
    specialize (IH false).
    destruct (regex_search false r) as [ds |].
    + destruct IH as (i & Hi & Hmin).
      destruct i as [| i]; [now apply key_from_not_start in Hi |].
      exists (S (S i)). split; [now apply key_from_later |].
      intros [| [| j]] ds' Hk; [now apply Hno0 in Hk | now apply Hno1 in Hk |].
      apply key_from_later in Hk. apply Hmin in Hk. lia.
    + intros [| [| j]] ds Hk; [now apply Hno0 in Hk | now apply Hno1 in Hk |].
      apply key_from_later in Hk. now apply IH in Hk.
Qed.

Lemma key_at_from text i ds : key_at text i ds <-> key_from true text i ds.
Proof.
  unfold key_at, key_from.
  destruct i; split; intros [Hi Hk]; split; auto.
Qed.

Lemma key_text_unique s ds ds' : key_text s ds -> key_text s ds' -> ds = ds'.
Proof. rewrite <- !match_key_iff. congruence. Qed.

Lemma matchChainId_spec text :
  match matchChainId text with
  | Some n => exists i ds, first_key text i ds /\ n = Number ds
  | None => forall i ds, ~ key_at text i ds
  end.
Proof.
  unfold matchChainId. pose proof (regex_search_spec text true) as H.
  destruct (regex_search true text) as [ds |].
  - destruct H as (i & Hi & Hmin). exists i, ds. split; [| reflexivity].
    split; [now apply key_at_from |].
    intros j ds' Hj. apply key_at_from in Hj. eauto.
  - intros i ds Hk. apply key_at_from in Hk. now apply H in Hk.
Qed.

(** ** [Number] on a run of digits *)

Lemma Number_exact ds :
  decimal_value ds < 2 ^ 53 -> Number ds = Num (decimal_value ds).
Proof.
  intros Hlt. unfold Number, round_to_double.
  apply Z.ltb_lt in Hlt. now rewrite Hlt.
Qed.

Lemma JSNumber_eqb_eq a b : JSNumber_eqb a b = true <-> a = b.
Proof.
  destruct a as [x |], b as [y |]; cbn; try (split; [discriminate | congruence]).
  - rewrite Z.eqb_eq. split; congruence.
  - split; reflexivity.
Qed.

(** Rounding never produces 173 from another integer. *)
Lemma Number_173 ds : Number ds = Num 173 <-> decimal_value ds = 173.
Proof.
  unfold Number, round_to_double.
  set (n := decimal_value ds).
  destruct (n <? 2 ^ 53) eqn:Hsmall; [split; congruence |].
  apply Z.ltb_ge in Hsmall.
  assert (H53 : 2 ^ 53 = 9007199254740992) by reflexivity.
  assert (H52 : 2 ^ 52 = 4503599627370496) by reflexivity.
  assert (Hlog : 53 <= Z.log2 n).
  { rewrite <- (Z.log2_pow2 53) by lia. apply Z.log2_le_mono. exact Hsmall. }
  set (e := Z.log2 n - 52).
  assert (He : 2 ^ 1 <= 2 ^ e) by (apply Z.pow_le_mono_r; lia).
  assert (Hm : 2 ^ 52 <= n / 2 ^ e).
  { apply Z.div_le_lower_bound; [lia |].
    rewrite <- Z.pow_add_r by lia.
    replace (e + 52) with (Z.log2 n) by lia.
    apply Z.log2_spec. lia. }
  cbv zeta.
  set (up := (2 ^ (e - 1) <? n mod 2 ^ e)
            || ((n mod 2 ^ e =? 2 ^ (e - 1)) && Z.odd (n / 2 ^ e))).
  set (m' := if up then n / 2 ^ e + 1 else n / 2 ^ e).
  assert (Hm' : 2 ^ 52 <= m') by (unfold m'; destruct up; lia).
  assert (Hbig : 2 ^ 52 * 2 ^ 1 <= m' * 2 ^ e) by (apply Z.mul_le_mono_nonneg; lia).
  change (2 ^ 1) with 2 in *.
  split; [| lia].
  destruct (2 ^ 1024 <=? m' * 2 ^ e); [discriminate |].
  intros [= Heq]. lia.
Qed.

(** ** Classification *)

Lemma getDestinationChainId_decoded hex :
  getDestinationChainId hex
  = match decoded_text hex with
    | Some text => matchChainId text
    | None => None
    end.
Proof.
  unfold getDestinationChainId, decoded_text.
  destruct (toUtf8String hex); [reflexivity |].
  now destruct (hexBufferToString (strip0x hex)).
Qed.

(** C7 as amended. On the decoded text, [getDestinationChainId] returns
    [Number] of the digits of the first [c=<digits>] key that stands at the
    start of the string or right after a [&] or a [?]: the integer itself
    when it is below 2^53, its rounding to a double otherwise.  It returns
    [null] when the text has no such key; one of the two is always the case.
    A [c=] that follows any other code unit is not a key. *)
Theorem getDestinationChainId_first_key hex text
    (Hdecoded : decoded_text hex = Some text) :
  (forall i ds,
      first_key text i ds ->
      getDestinationChainId hex = Some (Number ds)
      /\ (decimal_value ds < 2 ^ 53 -> Number ds = Num (decimal_value ds)))
  /\ ((forall i ds, ~ key_at text i ds) -> getDestinationChainId hex = None)
  /\ ((exists i ds, first_key text i ds) \/ (forall i ds, ~ key_at text i ds))
  /\ (forall i d ds,
        nth_error text i = Some d -> is_delim d = false -> ~ key_at text (S i) ds).
Proof.
  rewrite getDestinationChainId_decoded, Hdecoded.
  assert (Hother : forall i d ds,
             nth_error text i = Some d -> is_delim d = false ->
             ~ key_at text (S i) ds).
  { intros i d ds Hd Hno [(d' & Hd' & Hyes) _]. congruence. }
  pose proof (matchChainId_spec text) as Hspec.
  destruct (matchChainId text) as [n |].
  - destruct Hspec as (i & ds & [Hkey Hmin] & ->).
    split; [| split; [| split; [| exact Hother]]].
    + intros j ds' [Hkey' Hmin']. split; [| apply Number_exact].
      assert (j = i) by (apply Nat.le_antisymm; eauto). subst j.
      destruct Hkey as [_ Hk], Hkey' as [_ Hk'].
      now rewrite (key_text_unique _ _ _ Hk Hk').
    + intros Hnone. now apply Hnone in Hkey.
    + left. exists i, ds. now split.
  - split; [| split; [| split; [| exact Hother]]].
    + intros i ds [Hkey _]. now apply Hspec in Hkey.
    + reflexivity.
    + now right.
Qed.

(** C5. A parsed event whose destination id is [D]: the inflow loop
    emits its record exactly when [D] is 173, the outflow loop exactly when
    [D] is not 173, and never both. *)
Theorem direction_partition log args D
    (Hparse : parseLog log = Some (inr args))
    (Hdest : getDestinationChainId (extData args) = Some D) :
  (inflow_loop [log] [] = inr [transfer_of log args true] <-> D = Num 173)
  /\ (inflow_loop [log] [] = inr [] <-> D <> Num 173)
  /\ (outflow_loop [log] [] = inr [transfer_of log args false] <-> D <> Num 173)
  /\ (outflow_loop [log] [] = inr [] <-> D = Num 173)
  /\ (inflow_loop [log] [] = inr [] \/ outflow_loop [log] [] = inr []).
Proof.
  rewrite inflow_loop_one, outflow_loop_one, Hparse.
  unfold isDestinationENI. rewrite Hdest.
  destruct (JSNumber_eqb D (Num 173)) eqn:Heq.
  - apply JSNumber_eqb_eq in Heq.
    repeat split; intros; try discriminate; try congruence; auto.
  - assert (D <> Num 173)
      by (intros Hd; apply JSNumber_eqb_eq in Hd; congruence).
    repeat split; intros; try discriminate; try congruence; auto.
Qed.

(** C2 as amended. A parsed event whose destination cannot be decoded
    (both decoders throw, or the text has no [c=<digits>] key) has a [null]
    destination id, which is not 173: the inflow loop emits nothing for it
    and the outflow loop emits its record with [isDeposit = false]. *)
Theorem unknown_destination_is_outflow log args
    (Hparse : parseLog log = Some (inr args))
    (Hunknown : decoded_text (extData args) = None
                \/ exists text, decoded_text (extData args) = Some text
                                /\ forall i ds, ~ key_at text i ds) :
  getDestinationChainId (extData args) = None
  /\ inflow_loop [log] [] = inr []
  /\ outflow_loop [log] [] = inr [transfer_of log args false]
  /\ isDeposit (transfer_of log args false) = false.
Proof.
  assert (Hnone : getDestinationChainId (extData args) = None).
  { rewrite getDestinationChainId_decoded.
    destruct Hunknown as [-> | (text & -> & Hno)]; [reflexivity |].
    pose proof (matchChainId_spec text) as Hspec.
    destruct (matchChainId text); [| reflexivity].
    destruct Hspec as (i & ds & [Hkey _] & _). now apply Hno in Hkey. }
  rewrite inflow_loop_one, outflow_loop_one, Hparse.
  unfold isDestinationENI. rewrite Hnone. auto.
Qed.

(** C6. Every record of either loop is made from one parsed log of the
    input, field by field; a parsed log whose [extData] decodes to
    ["r=1&c=173&x=9"] gives exactly one inflow record, a deposit. *)
Theorem transfer_fields_verbatim :
  (forall logs records r,
      inflow_loop logs [] = inr records ->
      In r records ->
      exists log args,
        In log logs /\ parseLog log = Some (inr args)
        /\ from r = sender args /\ to r = recipient args
        /\ token r = inputToken args /\ amount r = inputAmount args
        /\ txHash r = transactionHash log /\ blockNumber r = log_blockNumber log
        /\ isDeposit r = true)
  /\ (forall logs records r,
        outflow_loop logs [] = inr records ->
        In r records ->
        exists log args,
          In log logs /\ parseLog log = Some (inr args)
          /\ from r = sender args /\ to r = recipient args
          /\ token r = inputToken args /\ amount r = inputAmount args
          /\ txHash r = transactionHash log /\ blockNumber r = log_blockNumber log
          /\ isDeposit r = false)
  /\ (forall log args,
        parseLog log = Some (inr args) ->
        toUtf8String (extData args) = Some (js "r=1&c=173&x=9") ->
        inflow_loop [log] []
        = inr [ {| txHash := transactionHash log;
                   blockNumber := log_blockNumber log;
                   from := sender args;
                   to := recipient args;
                   token := inputToken args;
                   amount := inputAmount args;
                   isDeposit := true |} ]).
Proof.
  split; [| split].
  - intros logs records r Hrun Hin.
    destruct (inflow_loop_In _ _ _ Hrun Hin) as (log & args & Hl & Hp & _ & ->).
    exists log, args. cbn. repeat split; assumption.
  - intros logs records r Hrun Hin.
    destruct (outflow_loop_In _ _ _ Hrun Hin) as (log & args & Hl & Hp & _ & ->).
    exists log, args. cbn. repeat split; assumption.
  - intros log args Hp Htext.
    rewrite inflow_loop_one, Hp. unfold isDestinationENI, getDestinationChainId.
    rewrite Htext. reflexivity.
Qed.

(** * Further properties of the scanner *)

(** ** What is asked of the log source *)

Lemma shrink_loop_requests chain start end_ allLogs w w' fs res :
  start <= end_ ->
  shrink_loop chain start end_ allLogs w = (w', fs, res) ->
  Forall (fun f => exists e,
              request f = query chain start e
              /\ start <= e <= end_
              /\ (e = end_ \/ 26 <= e - start + 1)) fs.
Proof.
  intros Hle Hrun. revert Hle. revert w' fs res Hrun. revert end_ allLogs w.
  apply (shrink_loop_rect chain start
           (fun end_ allLogs w r =>
              forall w' fs res, r = (w', fs, res) -> start <= end_ ->
              Forall (fun f => exists e,
                          request f = query chain start e
                          /\ start <= e <= end_
                          /\ (e = end_ \/ 26 <= e - start + 1)) fs)).
  - intros end_ allLogs w w1 logs _ w' fs res [= <- <- <-] Hle.
    repeat constructor. exists end_. cbn. split; [reflexivity |]. split; [lia | now left].
  - intros end_ allLogs w w1 e _ _ w' fs res [= <- <- <-] Hle.
    repeat constructor. exists end_. cbn. split; [reflexivity |]. split; [lia | now left].
  - intros end_ allLogs w w1 e w2 fs1 res1 _ Hr _ IH w' fs res [= <- <- <-] Hle.
    assert (Hlo : 25 <= (end_ - start + 1) / 2) by (apply Z.div_le_lower_bound; lia).
    assert (Hhi : (end_ - start + 1) / 2 < end_ - start)
      by (apply Z.div_lt_upper_bound; lia).
    constructor.
    + exists end_. cbn. split; [reflexivity |]. split; [lia | now left].
    + eapply Forall_impl; [| apply (IH _ _ _ eq_refl); lia].
      cbn. intros f (e0 & Hreq & Hb & Hsize). exists e0.
      split; [exact Hreq |]. split; [lia |]. right. lia.
Qed.

Lemma chunk_loop_requests chain toBlock start allLogs w w' fs res :
  chunk_loop chain toBlock start allLogs w = (w', fs, res) ->
  Forall (fun f => exists k e,
              0 <= k
              /\ request f = query chain (start + k * getChunkSize chain) e
              /\ start + k * getChunkSize chain <= e
              /\ e <= Z.min (start + k * getChunkSize chain + getChunkSize chain - 1)
                         toBlock
              /\ (e = Z.min (start + k * getChunkSize chain + getChunkSize chain - 1)
                         toBlock
                  \/ 26 <= e - (start + k * getChunkSize chain) + 1)) fs.
Proof.
  pose proof (getChunkSize_pos chain) as Hsize.
  revert w' fs res. revert start allLogs w.
  apply (chunk_loop_rect chain toBlock
           (fun start allLogs w r =>
              forall w' fs res, r = (w', fs, res) ->
              Forall (fun f => exists k e,
                          0 <= k
                          /\ request f = query chain (start + k * getChunkSize chain) e
                          /\ start + k * getChunkSize chain <= e
                          /\ e <= Z.min (start + k * getChunkSize chain
                                         + getChunkSize chain - 1) toBlock
                          /\ (e = Z.min (start + k * getChunkSize chain
                                         + getChunkSize chain - 1) toBlock
                              \/ 26 <= e - (start + k * getChunkSize chain) + 1)) fs)).
  - intros start allLogs w _ w' fs res [= <- <- <-]. constructor.
  - intros start allLogs w w1 fs1 e Hle Hrun w' fs res [= <- <- <-].
    assert (Hle' : start <= Z.min (start + getChunkSize chain - 1) toBlock) by lia.
    eapply Forall_impl; [| exact (shrink_loop_requests _ _ _ _ _ _ _ _ Hle' Hrun)].
    cbn. intros f (e0 & Hreq & Hb & Hs). exists 0, e0.
    rewrite Z.mul_0_l, Z.add_0_r. repeat split; try assumption; lia.
  - intros start allLogs w w1 fs1 allLogs' w2 fs2 res2 Hle Hrun _ IH w' fs res
           [= <- <- <-].
    assert (Hle' : start <= Z.min (start + getChunkSize chain - 1) toBlock) by lia.
    apply Forall_app. split.
    + eapply Forall_impl; [| exact (shrink_loop_requests _ _ _ _ _ _ _ _ Hle' Hrun)].
      cbn. intros f (e0 & Hreq & Hb & Hs). exists 0, e0.
      rewrite Z.mul_0_l, Z.add_0_r. repeat split; try assumption; lia.
    + eapply Forall_impl; [| exact (IH _ _ _ eq_refl)].
      cbn. intros f (k & e0 & Hk & Hreq & H1 & H2 & H3). exists (k + 1), e0.
      replace (start + (k + 1) * getChunkSize chain)
        with (start + getChunkSize chain + k * getChunkSize chain) by lia.
      repeat split; try assumption; lia.
Qed.

(** X1. Every fetch of a scan, failed or not, asks for the
    [BridgeExecuted] topic of the bridge contract on the scanned chain, over
    a non-empty window inside the requested range that starts a whole
    number of chunks after [fromBlock] and has at most [chunkSize] blocks;
    the window is the whole chunk or has at least 26 blocks. *)
Theorem fetches_stay_in_range chain fromBlock toBlock w w' fs res
    (Hscan : getLogsSafe chain fromBlock toBlock w = (w', fs, res)) :
  Forall (fun f =>
            gl_chain (request f) = chain
            /\ gl_target (request f) = ORBITER_CONTRACT
            /\ gl_topics (request f) = [BRIDGE_EXECUTED_TOPIC]
            /\ fromBlock <= gl_fromBlock (request f)
            /\ gl_fromBlock (request f) <= gl_toBlock (request f)
            /\ gl_toBlock (request f) <= toBlock
            /\ range_of (request f) <= getChunkSize chain
            /\ (exists k, 0 <= k
                 /\ gl_fromBlock (request f) = fromBlock + k * getChunkSize chain)
            /\ (gl_toBlock (request f)
                = Z.min (gl_fromBlock (request f) + getChunkSize chain - 1) toBlock
                \/ 26 <= range_of (request f))) fs.
Proof.
  pose proof (getChunkSize_pos chain) as Hsize.
  eapply Forall_impl; [| exact (chunk_loop_requests _ _ _ _ _ _ _ _ Hscan)].
  cbn. intros f (k & e & Hk & -> & H1 & H2 & H3).
  unfold range_of. cbn.
  assert (0 <= k * getChunkSize chain) by nia.
  split; [reflexivity |]. split; [reflexivity |]. split; [reflexivity |].
  split; [lia |]. split; [lia |]. split; [lia |]. split; [lia |].
  split; [exists k; split; [lia | reflexivity] |].
  destruct H3 as [-> | H3]; [now left | right; lia].
Qed.

(** ** What a scan that returns has fetched *)

Lemma fetched_ranges_In (fs : list (Fetch Err)) r :
  In r (fetched_ranges fs) ->
  exists f, In f fs /\ succeeded f = true
            /\ r = (gl_fromBlock (request f), gl_toBlock (request f)).
Proof.
  induction fs as [| f fs' IH]; cbn; [intros [] |].
  destruct (succeeded f) eqn:Hs.
  - intros [<- | Hin]; [exists f; auto |].
    destruct (IH Hin) as (g & Hg & H). exists g. auto.
  - intros Hin. destruct (IH Hin) as (g & Hg & H). exists g. auto.
Qed.

Lemma chunk_loop_returned_windows chain toBlock start allLogs w w' fs res :
  chunk_loop chain toBlock start allLogs w = (w', fs, res) ->
  forall logs,
    res = inr logs ->
    Forall2 (fun r c => fst r = fst c
                        /\ fst r <= snd r <= snd c
                        /\ (snd r = snd c \/ 26 <= snd r - fst r + 1))
            (fetched_ranges fs)
            (chunks_of (getChunkSize chain) start toBlock
               (chunk_count (getChunkSize chain) start toBlock)).
Proof.
  pose proof (getChunkSize_pos chain) as Hsize. unfold chunk_count.
  revert w' fs res. revert start allLogs w.
  apply (chunk_loop_rect chain toBlock
           (fun start allLogs w r =>
              forall w' fs res, r = (w', fs, res) ->
              forall logs : list Log, res = inr logs ->
              Forall2 (fun r c => fst r = fst c
                                  /\ fst r <= snd r <= snd c
                                  /\ (snd r = snd c \/ 26 <= snd r - fst r + 1))
                      (fetched_ranges fs)
                      (chunks_of (getChunkSize chain) start toBlock
                         (Z.to_nat ((toBlock - start + getChunkSize chain)
                                    / getChunkSize chain))))).
  - intros start allLogs w Hlt w' fs res [= <- <- <-] logs _.
    rewrite chunk_count_0 by assumption. constructor.
  - intros start allLogs w w1 fs1 e _ _ w' fs res [= <- <- <-] logs [=].
  - intros start allLogs w w1 fs1 allLogs' w2 fs2 res2 Hle Hrun _ IH w' fs res
           [= <- <- <-] logs ->.
    assert (Hle' : start <= Z.min (start + getChunkSize chain - 1) toBlock) by lia.
    destruct (shrink_loop_returns _ _ _ _ _ _ _ _ Hle' Hrun)
      as (e' & He' & _ & _ & Hranges & _).
    pose proof (shrink_loop_requests _ _ _ _ _ _ _ _ Hle' Hrun) as Hreq.
    assert (Hwin : e' = Z.min (start + getChunkSize chain - 1) toBlock
                   \/ 26 <= e' - start + 1).
    { destruct (fetched_ranges_In fs1 (start, e')) as (f & Hf & _ & Heq);
        [rewrite Hranges; now left |].
      rewrite Forall_forall in Hreq.
      destruct (Hreq f Hf) as (e0 & Hq & _ & Hs).
      rewrite Hq in Heq. cbn in Heq. injection Heq as <-. exact Hs. }
    rewrite fetched_ranges_app, Hranges, chunk_count_S, chunks_of_S by assumption.
    cbn [app]. constructor; [| exact (IH _ _ _ eq_refl logs eq_refl)].
    cbn. split; [reflexivity |]. split; [lia | exact Hwin].
Qed.

(** X2. A scan that returns has fetched exactly one window for each
    chunk of the partition, in order: the window starts where the chunk
    starts, ends no later than the chunk, and is the whole chunk or has at
    least 26 blocks. *)
Theorem returned_windows_are_chunk_prefixes chain fromBlock toBlock w w' fs logs
    (Hscan : getLogsSafe chain fromBlock toBlock w = (w', fs, inr logs)) :
  Forall2 (fun r c => fst r = fst c
                      /\ fst r <= snd r <= snd c
                      /\ (snd r = snd c \/ 26 <= snd r - fst r + 1))
          (fetched_ranges fs)
          (chunks_of (getChunkSize chain) fromBlock toBlock
             (chunk_count (getChunkSize chain) fromBlock toBlock))
  /\ List.length (fetched_ranges fs)
     = chunk_count (getChunkSize chain) fromBlock toBlock.
Proof.
  pose proof (chunk_loop_returned_windows _ _ _ _ _ _ _ _ Hscan logs eq_refl) as H.
  split; [exact H |].
  apply Forall2_length in H. rewrite H.
  unfold chunks_of. now rewrite length_map, length_seq.
Qed.

(** X3. A scan of a non-empty range that returns has covered the range
    without gap or overlap exactly when none of its fetches failed. *)
Theorem returned_scan_covers_iff_no_failure chain fromBlock toBlock w w' fs logs
    (Hrange : fromBlock <= toBlock)
    (Hscan : getLogsSafe chain fromBlock toBlock w = (w', fs, inr logs)) :
  tiles (fetched_ranges fs) fromBlock toBlock = true
  <-> Forall (fun f => succeeded f = true) fs.
Proof.
  rewrite (getLogsSafe_covers_iff_no_failure _ _ _ _ _ _ _ Hrange Hscan).
  rewrite forallb_forall, Forall_forall. reflexivity.
Qed.

(** ** How many fetches a scan costs *)

Lemma shrink_loop_length chain start k :
  forall end_ allLogs w w' fs res,
    end_ - start + 1 <= shrink_bound k ->
    shrink_loop chain start end_ allLogs w = (w', fs, res) ->
    (List.length fs <= S k)%nat.
Proof.
  induction k as [| k IH]; intros end_ allLogs w w' fs res Hb;
    rewrite shrink_loop_body;
    destruct (getLogs (query chain start end_) w) as [w1 [e | logs]];
    try (intros [= <- <- <-]; cbn; lia).
  - cbn in Hb. apply Z.leb_le in Hb as Hb'. rewrite Hb'.
    intros [= <- <- <-]. cbn. lia.
  - destruct (end_ - start + 1 <=? 50) eqn:Hr; [intros [= <- <- <-]; cbn; lia |].
    destruct (shrink_loop chain start (start + (end_ - start + 1) / 2) allLogs w1)
      as [[w2 fs2] res2] eqn:Hrec.
    cbn [record_fetch]. intros [= <- <- <-]. cbn [List.length].
    apply le_n_S. refine (IH _ _ _ _ _ _ _ Hrec).
    cbn [shrink_bound] in Hb.
    assert ((end_ - start + 1) / 2 < shrink_bound k)
      by (apply Z.div_lt_upper_bound; lia).
    lia.
Qed.

Lemma chunk_loop_length chain toBlock k :
  getChunkSize chain <= shrink_bound k ->
  forall start allLogs w w' fs res,
    chunk_loop chain toBlock start allLogs w = (w', fs, res) ->
    (List.length fs <= S k * chunk_count (getChunkSize chain) start toBlock)%nat.
Proof.
  intros Hk. pose proof (getChunkSize_pos chain) as Hsize. unfold chunk_count.
  intros start allLogs w w' fs res. revert w' fs res. revert start allLogs w.
  apply (chunk_loop_rect chain toBlock
           (fun start allLogs w r =>
              forall w' fs res, r = (w', fs, res) ->
              (List.length fs
               <= S k * Z.to_nat ((toBlock - start + getChunkSize chain)
                                  / getChunkSize chain))%nat)).
  - intros start allLogs w _ w' fs res [= <- <- <-]. cbn. lia.
  - intros start allLogs w w1 fs1 e Hle Hrun w' fs res [= <- <- <-].
    rewrite chunk_count_S by assumption.
    assert (Hfit : Z.min (start + getChunkSize chain - 1) toBlock - start + 1
                   <= shrink_bound k) by lia.
    pose proof (shrink_loop_length chain start k _ _ _ _ _ _ Hfit Hrun). lia.
  - intros start allLogs w w1 fs1 allLogs' w2 fs2 res2 Hle Hrun _ IH w' fs res
           [= <- <- <-].
    rewrite chunk_count_S by assumption. rewrite length_app.
    assert (Hfit : Z.min (start + getChunkSize chain - 1) toBlock - start + 1
                   <= shrink_bound k) by lia.
    pose proof (shrink_loop_length chain start k _ _ _ _ _ _ Hfit Hrun).
    specialize (IH _ _ _ eq_refl). lia.
Qed.

(** X4. A scan issues at most 8 fetches for each chunk of the range,
    whatever the log source answers; more precisely at most [k + 1] for each
    chunk when the chunk size of the chain is at most [shrink_bound k] (5 on
    bsc, 6 on polygon, 7 on ethereum, 8 on arbitrum, optimism and base). *)
Theorem fetches_per_chunk_bounded chain fromBlock toBlock w w' fs res
    (Hscan : getLogsSafe chain fromBlock toBlock w = (w', fs, res)) :
  (List.length fs <= 8 * chunk_count (getChunkSize chain) fromBlock toBlock)%nat
  /\ (forall k,
        getChunkSize chain <= shrink_bound k ->
        (List.length fs
         <= S k * chunk_count (getChunkSize chain) fromBlock toBlock)%nat)
  /\ getChunkSize "bsc"%string <= shrink_bound 4
  /\ getChunkSize "polygon"%string <= shrink_bound 5
  /\ getChunkSize "ethereum"%string <= shrink_bound 6
  /\ getChunkSize chain <= shrink_bound 7.
Proof.
  assert (Hall : getChunkSize chain <= shrink_bound 7).
  { unfold getChunkSize. cbn.
    repeat match goal with |- context [if ?b then _ else _] => destruct b end; lia. }
  split; [exact (chunk_loop_length chain toBlock 7 Hall _ _ _ _ _ _ Hscan) |].
  split; [intros k Hk; exact (chunk_loop_length chain toBlock k Hk _ _ _ _ _ _ Hscan) |].
  repeat split; try exact Hall; cbn; lia.
Qed.

(** ** Scanning a range in two parts *)

Lemma shrink_loop_acc chain start acc :
  forall end_ allLogs w,
    shrink_loop chain start end_ (acc ++ allLogs) w
    = prepend_logs acc (shrink_loop chain start end_ allLogs w).
Proof.
  apply (shrink_loop_rect chain start
           (fun end_ allLogs w r =>
              shrink_loop chain start end_ (acc ++ allLogs) w = prepend_logs acc r)).
  - intros end_ allLogs w w' logs Hget.
    rewrite shrink_loop_body, Hget. cbn. now rewrite app_assoc.
  - intros end_ allLogs w w' e Hget Hr.
    apply Z.leb_le in Hr. rewrite shrink_loop_body, Hget, Hr. reflexivity.
  - intros end_ allLogs w w' e w'' fs res Hget Hr Hrec IH.
    apply Z.leb_gt in Hr. rewrite shrink_loop_body, Hget, Hr, IH.
    now destruct res.
Qed.

Lemma chunk_loop_acc chain toBlock acc :
  forall start allLogs w,
    chunk_loop chain toBlock start (acc ++ allLogs) w
    = prepend_logs acc (chunk_loop chain toBlock start allLogs w).
Proof.
  apply (chunk_loop_rect chain toBlock
           (fun start allLogs w r =>
              chunk_loop chain toBlock start (acc ++ allLogs) w = prepend_logs acc r)).
  - intros start allLogs w Hlt. apply Z.leb_gt in Hlt.
    rewrite chunk_loop_body, Hlt. reflexivity.
  - intros start allLogs w w' fs e Hle Hrun. apply Z.leb_le in Hle.
    rewrite chunk_loop_body, Hle, shrink_loop_acc, Hrun. reflexivity.
  - intros start allLogs w w' fs allLogs' w'' fs' res Hle Hrun Hrec IH.
    apply Z.leb_le in Hle.
    rewrite chunk_loop_body, Hle, shrink_loop_acc, Hrun. cbn [prepend_logs].
    rewrite IH. now destruct res.
Qed.

Lemma chunk_loop_split chain toBlock (k : nat) :
  forall start allLogs w,
    start + Z.of_nat k * getChunkSize chain - 1 <= toBlock ->
    chunk_loop chain toBlock start allLogs w
    = match chunk_loop chain (start + Z.of_nat k * getChunkSize chain - 1)
              start allLogs w with
      | (w1, fs1, inl e) => (w1, fs1, inl e)
      | (w1, fs1, inr logs1) =>
          let '(w2, fs2, res) :=
            chunk_loop chain toBlock (start + Z.of_nat k * getChunkSize chain)
                       logs1 w1
          in (w2, fs1 ++ fs2, res)
      end.
Proof.
  pose proof (getChunkSize_pos chain) as Hsize.
  induction k as [| k IH]; intros start allLogs w Hm.
  - replace (start + Z.of_nat 0 * getChunkSize chain) with start by lia.
    rewrite (chunk_loop_body chain (start - 1)).
    assert (Hg : (start <=? start - 1) = false) by (apply Z.leb_gt; lia).
    rewrite Hg. now destruct (chunk_loop chain toBlock start allLogs w) as [[? ?] ?].
  - set (m := start + Z.of_nat (S k) * getChunkSize chain) in *.
    assert (Hm' : m = start + getChunkSize chain + Z.of_nat k * getChunkSize chain)
      by (unfold m; lia).
    assert (0 <= Z.of_nat k * getChunkSize chain) by nia.
    rewrite (chunk_loop_body chain toBlock), (chunk_loop_body chain (m - 1)).
    assert (H1 : (start <=? toBlock) = true) by (apply Z.leb_le; lia).
    assert (H2 : (start <=? m - 1) = true) by (apply Z.leb_le; lia).
    rewrite H1, H2, !Z.min_l by lia.
    destruct (shrink_loop chain start (start + getChunkSize chain - 1) allLogs w)
      as [[w' fs] [e | logs']]; [reflexivity |].
    rewrite (IH (start + getChunkSize chain) logs' w') by lia.
    rewrite <- Hm'.
    destruct (chunk_loop chain (m - 1) (start + getChunkSize chain) logs' w')
      as [[w1 fs1] [e | logs1]]; [reflexivity |].
    destruct (chunk_loop chain toBlock m logs1 w1) as [[w2 fs2] res].
    now rewrite app_assoc.
Qed.

(** X5. Scanning a range in two parts, cut after a whole number of
    chunks, issues the same fetches and gives the same result as scanning it
    at once: when the first part throws, so does the whole scan, with the
    same fetches; when it returns, the whole scan continues with the fetches
    of the second part and returns the logs of both, in order, or throws
    what the second part throws. *)
Theorem scan_splits_at_chunk_boundary chain fromBlock toBlock (k : nat) w
    (Hcut : fromBlock + Z.of_nat k * getChunkSize chain - 1 <= toBlock) :
  let cut := fromBlock + Z.of_nat k * getChunkSize chain in
  getLogsSafe chain fromBlock toBlock w
  = match getLogsSafe chain fromBlock (cut - 1) w with
    | (w1, fs1, inl e) => (w1, fs1, inl e)
    | (w1, fs1, inr logs1) =>
        match getLogsSafe chain cut toBlock w1 with
        | (w2, fs2, inl e) => (w2, fs1 ++ fs2, inl e)
        | (w2, fs2, inr logs2) => (w2, fs1 ++ fs2, inr (logs1 ++ logs2))
        end
    end.
Proof.
  intros cut. unfold getLogsSafe, cut.
  rewrite (chunk_loop_split chain toBlock k fromBlock [] w Hcut).
  destruct (chunk_loop chain (fromBlock + Z.of_nat k * getChunkSize chain - 1)
              fromBlock [] w) as [[w1 fs1] [e | logs1]]; [reflexivity |].
  rewrite <- (app_nil_r logs1) at 1. rewrite chunk_loop_acc.
  destruct (chunk_loop chain toBlock (fromBlock + Z.of_nat k * getChunkSize chain)
              [] w1) as [[w2 fs2] [e | logs2]]; reflexivity.
Qed.

(** * Further properties of the classifier and the adapters *)

Lemma inflow_loop_closed logs :
  inflow_loop logs []
  = match first_unreadable logs with
    | Some e => inl e
    | None => inr (map (record_of true) (filter to_eni (readable logs)))
    end.
Proof.
  induction logs as [| log rest IH]; [reflexivity |].
  rewrite inflow_loop_cons, inflow_loop_one, IH. cbn [first_unreadable readable].
  destruct (parseLog log) as [[e | args] |]; [reflexivity | |].
  - cbn [filter]. unfold to_eni at 2. cbn [snd].
    destruct (isDestinationENI (extData args));
      destruct (first_unreadable rest); reflexivity.
  - destruct (first_unreadable rest); reflexivity.
Qed.

Lemma outflow_loop_closed logs :
  outflow_loop logs []
  = match first_unreadable logs with
    | Some e => inl e
    | None => inr (map (record_of false)
                       (filter (fun la => negb (to_eni la)) (readable logs)))
    end.
Proof.
  induction logs as [| log rest IH]; [reflexivity |].
  rewrite outflow_loop_cons, outflow_loop_one, IH. cbn [first_unreadable readable].
  destruct (parseLog log) as [[e | args] |]; [reflexivity | |].
  - cbn [filter]. unfold to_eni at 2. cbn [snd].
    destruct (isDestinationENI (extData args));
      destruct (first_unreadable rest); reflexivity.
  - destruct (first_unreadable rest); reflexivity.
Qed.

Lemma readable_In logs log args :
  In log logs -> parseLog log = Some (inr args) -> In (log, args) (readable logs).
Proof.
  induction logs as [| l rest IH]; [intros [] |].
  intros [-> | Hin] Hp; cbn.
  - rewrite Hp. now left.
  - destruct (parseLog l) as [[e | a] |]; auto. right. auto.
Qed.

Lemma then_records_assoc r1 r2 r3 :
  then_records (then_records r1 r2) r3 = then_records r1 (then_records r2 r3).
Proof.
  destruct r1 as [e1 | a]; [reflexivity |].
  destruct r2 as [e2 | b]; [reflexivity |].
  destruct r3 as [e3 | c]; [reflexivity |].
  cbn. now rewrite app_assoc.
Qed.

(** X6. Both loops throw exactly when some log of the list parses but
    its fields cannot be read, and then with the error of the first such
    log.  Otherwise the inflow loop returns the records of the readable logs
    whose destination is 173, in order, and the outflow loop those of all
    other readable logs: each readable log gives one record in exactly one
    of the two results, and a log that fails to parse gives none. *)
Theorem parsed_logs_are_partitioned logs :
  match first_unreadable logs with
  | Some e => inflow_loop logs [] = inl e /\ outflow_loop logs [] = inl e
  | None =>
      exists deposits withdrawals,
        inflow_loop logs [] = inr deposits
        /\ outflow_loop logs [] = inr withdrawals
        /\ deposits = map (record_of true) (filter to_eni (readable logs))
        /\ withdrawals
           = map (record_of false)
               (filter (fun la => negb (to_eni la)) (readable logs))
        /\ (List.length deposits + List.length withdrawals)%nat
           = List.length (readable logs)
  end.
Proof.
  rewrite inflow_loop_closed, outflow_loop_closed.
  destruct (first_unreadable logs) as [e |]; [split; reflexivity |].
  eexists _, _. repeat (split; [reflexivity |]).
  rewrite !length_map.
  induction (readable logs) as [| la rest IH]; [reflexivity |].
  cbn. destruct (to_eni la); cbn; lia.
Qed.

Lemma inflow_loop_app l1 l2 :
  inflow_loop (l1 ++ l2) []
  = then_records (inflow_loop l1 []) (inflow_loop l2 []).
Proof.
  induction l1 as [| log rest IH]; cbn [app].
  - now destruct (inflow_loop l2 []).
  - rewrite (inflow_loop_cons log (rest ++ l2)), (inflow_loop_cons log rest).
    now rewrite IH, then_records_assoc.
Qed.

Lemma outflow_loop_app l1 l2 :
  outflow_loop (l1 ++ l2) []
  = then_records (outflow_loop l1 []) (outflow_loop l2 []).
Proof.
  induction l1 as [| log rest IH]; cbn [app].
  - now destruct (outflow_loop l2 []).
  - rewrite (outflow_loop_cons log (rest ++ l2)), (outflow_loop_cons log rest).
    now rewrite IH, then_records_assoc.
Qed.

(** X7. The loops work log by log: the outcome on a concatenation is
    that of the first part followed by that of the second, the first error
    met or else the records of both in order, and records already collected
    are kept in front unchanged. *)
Theorem loops_compose l1 l2 events :
  inflow_loop (l1 ++ l2) events
  = then_records (inr events)
      (then_records (inflow_loop l1 []) (inflow_loop l2 []))
  /\ outflow_loop (l1 ++ l2) events
     = then_records (inr events)
         (then_records (outflow_loop l1 []) (outflow_loop l2 [])).
Proof.
  rewrite (inflow_loop_acc (l1 ++ l2)), (outflow_loop_acc (l1 ++ l2)).
  now rewrite inflow_loop_app, outflow_loop_app.
Qed.

(** X8. When a loop returns, no matching event has been dropped: a log
    of the input whose fields are read has its record in the inflow result
    when its destination is 173, and in the outflow result otherwise. *)
Theorem matching_logs_are_emitted logs log args
    (Hin : In log logs)
    (Hparse : parseLog log = Some (inr args)) :
  (forall records,
      inflow_loop logs [] = inr records ->
      isDestinationENI (extData args) = true ->
      In (transfer_of log args true) records)
  /\ (forall records,
        outflow_loop logs [] = inr records ->
        isDestinationENI (extData args) = false ->
        In (transfer_of log args false) records).
Proof.
  pose proof (readable_In _ _ _ Hin Hparse) as Hr.
  split; intros records Hrun Hd.
  - rewrite inflow_loop_closed in Hrun.
    destruct (first_unreadable logs); [discriminate |]. injection Hrun as <-.
    apply (in_map (record_of true) _ (log, args)).
    apply filter_In. split; [exact Hr | exact Hd].
  - rewrite outflow_loop_closed in Hrun.
    destruct (first_unreadable logs); [discriminate |]. injection Hrun as <-.
    apply (in_map (record_of false) _ (log, args)).
    apply filter_In. split; [exact Hr |]. unfold to_eni. cbn. now rewrite Hd.
Qed.

(** X9. [isDestinationENI] holds exactly when the decoded text has a
    first [c=<digits>] key whose digits have the value 173: leading zeros
    do not matter, and no run of digits with another value is taken for
    173 by the rounding of [Number]. *)
Theorem isDestinationENI_iff hex :
  isDestinationENI hex = true
  <-> exists text i ds,
        decoded_text hex = Some text
        /\ first_key text i ds
        /\ decimal_value ds = 173.
Proof.
  unfold isDestinationENI. rewrite getDestinationChainId_decoded.
  destruct (decoded_text hex) as [text |].
  - pose proof (matchChainId_spec text) as Hspec.
    destruct (matchChainId text) as [n |].
    + destruct Hspec as (i & ds & Hfirst & ->).
      rewrite JSNumber_eqb_eq, Number_173. split.
      * intros Hv. exists text, i, ds. auto.
      * intros (text' & j & ds' & [= <-] & [Hkey' Hmin'] & Hv).
        destruct Hfirst as [Hkey Hmin].
        assert (j = i) by (apply Nat.le_antisymm; eauto). subst j.
        destruct Hkey as [_ Hk], Hkey' as [_ Hk'].
        now rewrite (key_text_unique _ _ _ Hk Hk').
    + split; [discriminate |].
      intros (text' & j & ds' & [= <-] & [Hkey _] & _). now apply Hspec in Hkey.
  - split; [discriminate |]. intros (text' & j & ds' & [=] & _).
Qed.

(** ** What the adapters return *)

Lemma getLogsSafe_chain chain fromBlock toBlock w w' fs res :
  getLogsSafe chain fromBlock toBlock w = (w', fs, res) ->
  Forall (fun f => gl_chain (request f) = chain
                   /\ fromBlock <= gl_fromBlock (request f)
                   /\ gl_toBlock (request f) <= toBlock) fs.
Proof.
  intros Hscan. pose proof (getChunkSize_pos chain) as Hsize.
  eapply Forall_impl; [| exact (chunk_loop_requests _ _ _ _ _ _ _ _ Hscan)].
  cbn. intros f (k & e & Hk & -> & H1 & H2 & _). cbn.
  assert (0 <= k * getChunkSize chain) by nia.
  split; [reflexivity |]. split; lia.
Qed.

(** X10. The callable registered in [adapter] under a key scans the
    chain of that name and no other; what it returns are deposits under
    every key but ["eni"], and withdrawals under ["eni"].  No key is
    registered twice. *)
Theorem adapter_entries_scan_their_chain key callable fromBlock toBlock w w' fs res
    (Hentry : In (key, callable) adapter)
    (Hrun : callable fromBlock toBlock w = (w', fs, res)) :
  Forall (fun f => gl_chain (request f) = key) fs
  /\ (forall records,
        res = inr records ->
        Forall (fun r => isDeposit r = negb (key =? "eni")%string) records)
  /\ NoDup (map fst adapter).
Proof.
  assert (Hin : forall c, inflowAdapter c fromBlock toBlock w = (w', fs, res) ->
                Forall (fun f => gl_chain (request f) = c) fs
                /\ forall records, res = inr records ->
                     Forall (fun r => isDeposit r = true) records).
  { intros c. unfold inflowAdapter.
    destruct (getLogsSafe c fromBlock toBlock w) as [[w1 fs1] [e | logs]] eqn:Hscan;
      intros [= <- <- <-];
      (split; [eapply Forall_impl; [| exact (getLogsSafe_chain _ _ _ _ _ _ _ Hscan)];
               cbn; now intros f (Hc & _) |]).
    - intros records [=].
    - intros records Hrecords. apply Forall_forall. intros r Hr.
      destruct (inflow_loop_In _ _ _ Hrecords Hr) as (l & a & _ & _ & _ & ->).
      reflexivity. }
  assert (Hout : outflowAdapter fromBlock toBlock w = (w', fs, res) ->
                 Forall (fun f => gl_chain (request f) = ENI_CHAIN) fs
                 /\ forall records, res = inr records ->
                      Forall (fun r => isDeposit r = false) records).
  { unfold outflowAdapter.
    destruct (getLogsSafe ENI_CHAIN fromBlock toBlock w)
      as [[w1 fs1] [e | logs]] eqn:Hscan;
      intros [= <- <- <-];
      (split; [eapply Forall_impl; [| exact (getLogsSafe_chain _ _ _ _ _ _ _ Hscan)];
               cbn; now intros f (Hc & _) |]).
    - intros records [=].
    - intros records Hrecords. apply Forall_forall. intros r Hr.
      destruct (outflow_loop_In _ _ _ Hrecords Hr) as (l & a & _ & _ & _ & ->).
      reflexivity. }
  assert (Hkeys : NoDup (map fst adapter)).
  { unfold adapter. rewrite map_app, map_map. cbn.
    repeat (constructor; [cbn; intros Hk;
                          repeat (destruct Hk as [Hk | Hk]; [discriminate Hk |]);
                          exact Hk |]).
    constructor. }
  unfold adapter in Hentry. cbn in Hentry.
  repeat (destruct Hentry as [Hentry | Hentry];
          [injection Hentry as <- <-; destruct (Hin _ Hrun) as [H1 H2];
           split; [exact H1 | split; [exact H2 | exact Hkeys]] |]).
  destruct Hentry as [Hentry | []].
  injection Hentry as <- <-. destruct (Hout Hrun) as [H1 H2].
  split; [exact H1 | split; [exact H2 | exact Hkeys]].
Qed.

Lemma fetched_logs_in_windows w fs w' :
  windowed_source ->
  replays w fs w' ->
  forall lo hi,
    Forall (fun f => lo <= gl_fromBlock (request f) /\ gl_toBlock (request f) <= hi) fs ->
    Forall (fun l => lo <= log_blockNumber l <= hi) (fetched_logs fs).
Proof.
  intros Hsrc. revert w. induction fs as [| f r IH]; intros w; cbn; [constructor |].
  intros (w1 & Hget & Hr) lo hi Hwin.
  inversion Hwin as [| ? ? [Hlo Hhi] Hrest]; subst.
  destruct (response f) as [e | logs] eqn:Hresp; [now apply (IH w1) |].
  apply Forall_app. split; [| now apply (IH w1)].
  eapply Forall_impl; [| exact (Hsrc _ _ _ _ Hget)]. cbn. lia.
Qed.

(** X11. When the log source returns, for a window, entries of that
    window, every log a scan returns and every record an adapter returns has
    its block number inside the requested range. *)
Theorem results_within_requested_range chain fromBlock toBlock w
    (Hsource : windowed_source) :
  (forall w' fs logs,
      getLogsSafe chain fromBlock toBlock w = (w', fs, inr logs) ->
      Forall (fun l => fromBlock <= log_blockNumber l <= toBlock) logs)
  /\ (forall w' fs records,
        inflowAdapter chain fromBlock toBlock w = (w', fs, inr records) ->
        Forall (fun r => fromBlock <= blockNumber r <= toBlock) records)
  /\ (forall w' fs records,
        outflowAdapter fromBlock toBlock w = (w', fs, inr records) ->
        Forall (fun r => fromBlock <= blockNumber r <= toBlock) records).
Proof.
  assert (Hscan : forall c w' fs logs,
             getLogsSafe c fromBlock toBlock w = (w', fs, inr logs) ->
             Forall (fun l => fromBlock <= log_blockNumber l <= toBlock) logs).
  { intros c w' fs logs Hrun.
    destruct (chunk_loop_order _ _ _ _ _ _ _ _ Hrun) as (_ & _ & _ & _ & Hlogs).
    rewrite (Hlogs logs eq_refl). cbn [app].
    eapply fetched_logs_in_windows;
      [exact Hsource | exact (chunk_loop_replays _ _ _ _ _ _ _ _ Hrun) |].
    eapply Forall_impl; [| exact (getLogsSafe_chain _ _ _ _ _ _ _ Hrun)].
    cbn. now intros f (_ & H). }
  split; [apply Hscan |]. split.
  - intros w' fs records. unfold inflowAdapter.
    destruct (getLogsSafe chain fromBlock toBlock w) as [[w1 fs1] [e | logs]] eqn:Hrun;
      [discriminate |].
    intros [= <- <- Hrecords]. apply Forall_forall. intros r Hr.
    destruct (inflow_loop_In _ _ _ Hrecords Hr) as (l & a & Hl & _ & _ & ->). cbn.
    pose proof (Hscan _ _ _ _ Hrun) as Hall. rewrite Forall_forall in Hall. auto.
  - intros w' fs records. unfold outflowAdapter.
    destruct (getLogsSafe ENI_CHAIN fromBlock toBlock w)
      as [[w1 fs1] [e | logs]] eqn:Hrun; [discriminate |].
    intros [= <- <- Hrecords]. apply Forall_forall. intros r Hr.
    destruct (outflow_loop_In _ _ _ Hrecords Hr) as (l & a & Hl & _ & _ & ->). cbn.
    pose proof (Hscan _ _ _ _ Hrun) as Hall. rewrite Forall_forall in Hall. auto.
Qed.

Lemma replays_In w fs w' f :
  replays w fs w' ->
  In f fs ->
  exists w0 w1, getLogs (request f) w0 = (w1, response f).
Proof.
  revert w. induction fs as [| g r IH]; intros w; cbn; [intros _ [] |].
  intros (w1 & Hget & Hr) [<- | Hin]; [eauto | exact (IH w1 Hr Hin)].
Qed.

(** X12. When the log source answers every query on at most 50 blocks,
    the scan never throws: whatever else fails, it returns. *)
Theorem scan_returns_when_small_windows_served chain fromBlock toBlock w
    (Hserved : forall p w0,
        range_of p <= 50 -> exists w1 logs, getLogs p w0 = (w1, inr logs)) :
  exists w' fs logs, getLogsSafe chain fromBlock toBlock w = (w', fs, inr logs).
Proof.
  destruct (getLogsSafe chain fromBlock toBlock w) as [[w' fs] [e | logs]] eqn:Hscan;
    [exfalso | eauto].
  pose proof (chunk_loop_throw_shape chain toBlock fromBlock [] w) as Hshape.
  pose proof (chunk_loop_replays _ _ _ _ _ _ _ _ Hscan) as Hrep.
  unfold getLogsSafe in Hscan. rewrite Hscan in Hshape. cbn [throw_shape] in Hshape.
  destruct Hshape as (fs0 & req & -> & Hsmall & _).
  destruct (replays_In _ _ _ (mkFetch req (inl e)) Hrep) as (w0 & w1 & Hget);
    [apply in_or_app; right; now left |].
  cbn in Hget. destruct (Hserved req w0 Hsmall) as (w2 & logs & Hok). congruence.
Qed.

End Adapter.


(** * The adapter on the sample collaborators *)

Local Open Scope string_scope.
Local Open Scope list_scope.

Local Abbreviation sample_scan source :=
  (getLogsSafe nat string source Sample.TOPIC).
Local Abbreviation sample_chain_id :=
  (getDestinationChainId Sample.toUtf8String Sample.hexBufferToString).
Local Abbreviation sample_text :=
  (decoded_text Sample.toUtf8String Sample.hexBufferToString).
Local Abbreviation sample_inflow :=
  (inflow_loop string Sample.parseLog Sample.toUtf8String Sample.hexBufferToString).
Local Abbreviation sample_outflow :=
  (outflow_loop string Sample.parseLog Sample.toUtf8String Sample.hexBufferToString).

(** ** The pattern on a few strings *)

Example pattern_at_start : matchChainId (js "c=56&r=1") = Some (Num 56).
Proof. reflexivity. Qed.

Example pattern_after_ampersand : matchChainId (js "r=1&c=173&x=9") = Some (Num 173).
Proof. reflexivity. Qed.

Example pattern_after_question_mark : matchChainId (js "a?c=0173") = Some (Num 173).
Proof. reflexivity. Qed.

Example pattern_first_match_only : matchChainId (js "c=1&c=173") = Some (Num 1).
Proof. reflexivity. Qed.

Example pattern_needs_delimiter : matchChainId (js "xc=5") = None.
Proof. reflexivity. Qed.

Example pattern_skips_undelimited : matchChainId (js "abc=5&c=7") = Some (Num 7).
Proof. reflexivity. Qed.

Example pattern_needs_digit : matchChainId (js "c=&c=12a") = Some (Num 12).
Proof. reflexivity. Qed.

Example pattern_absent : matchChainId (js "xyz") = None.
Proof. reflexivity. Qed.

Example number_rounds : matchChainId (js "c=9007199254740993")
                        = Some (Num 9007199254740992).
Proof. reflexivity. Qed.

Example sample_text_eni : sample_text Sample.ext_to_eni = Some (js "r=1&c=173&x=9").
Proof. reflexivity. Qed.

Example sample_text_xyz : sample_text Sample.ext_xyz = Some (js "xyz").
Proof. reflexivity. Qed.

Example sample_text_fallback :
  Sample.toUtf8String "0xff633d37" = None
  /\ sample_text "0xff633d37" = Some [65533%N; 99%N; 61%N; 55%N]
  /\ sample_chain_id "0xff633d37" = None.
Proof. repeat split. Qed.

Example sample_text_no_hex :
  Sample.toUtf8String "0xzz" = None
  /\ sample_text "0xzz" = Some []
  /\ sample_chain_id "0xzz" = None.
Proof. repeat split. Qed.

Example sample_text_odd_length :
  Sample.toUtf8String "0x633d37a" = None
  /\ sample_text "0x633d37a" = Some (js "c=7")
  /\ sample_chain_id "0x633d37a" = Some (Num 7).
Proof. repeat split. Qed.

Example number_overflows :
  matchChainId (js "c=" ++ repeat 57%N 400) = Some PosInfinity.
Proof. vm_compute. reflexivity. Qed.

(** ** A scan over a source that limits the window *)

(** C1. Ethereum, blocks 0 to 2999, on a log source that rejects windows
    of more than 1000 blocks: the fetch of [0, 2999] fails, so does the
    fetch of [0, 1500], the fetch of [0, 750] returns, and the loop moves on
    to block 3000.  The scan returns although blocks 751 to 2999 were never
    fetched, and the events of blocks 1600 and 2500 are missing from its
    result. *)
Theorem getLogsSafe_skips_after_shrink :
  exists w' fs logs,
    sample_scan (Sample.limited 1000) "ethereum" 0 2999 0%nat = (w', fs, inr logs)
    /\ map (fun f => (gl_fromBlock (request f), gl_toBlock (request f), succeeded f)) fs
       = [(0, 2999, false); (0, 1500, false); (0, 750, true)]
    /\ fetched_ranges fs = [(0, 750)]
    /\ tiles (fetched_ranges fs) 0 2999 = false
    /\ map log_blockNumber logs = [10]
    /\ map log_blockNumber Sample.history = [10; 1600; 2500].
Proof.
  eexists _, _, _. split; [vm_compute; reflexivity |].
  repeat split.
Qed.

(** ** A destination id that no double holds *)

(** The digits of the first key of ["c=9007199254740993"] are those of
    2^53 + 1; [getDestinationChainId] returns 2^53. *)
Lemma first_key_integer_counterexample :
  let hex := "0x633d39303037313939323534373430393933" in
  let text := js "c=9007199254740993" in
  let ds := js "9007199254740993" in
  sample_text hex = Some text
  /\ first_key text 0 ds
  /\ decimal_value ds = 9007199254740993
  /\ sample_chain_id hex = Some (Num 9007199254740992)
  /\ sample_chain_id hex <> Some (Num (decimal_value ds)).
Proof.
  cbv zeta. split; [vm_compute; reflexivity |]. split.
  - split; [| intros; lia].
    split; [exact I |]. exists []. split; [reflexivity |].
    split; [discriminate |]. split; [repeat constructor | discriminate].
  - split; [vm_compute; reflexivity |]. split; [vm_compute; reflexivity |].
    vm_compute. intros H. discriminate H.
Qed.

(** ** An event without a destination *)

(** The outflow loop emits a record for an event whose [extData] decodes
    to ["xyz"]. *)
Lemma fail_closed_counterexample :
  let log := Sample.bridge_log "0xdd" 7 Sample.ext_xyz in
  let args := mkBridgeExecuted "0xSender" "0xRecipient" "0xA0b8" "0xdAC1" 1000
                               Sample.ext_xyz in
  Sample.parseLog log = Some (inr args)
  /\ sample_text (extData args) = Some (js "xyz")
  /\ sample_chain_id (extData args) = None
  /\ sample_outflow [log] []
     = inr [mkTransferRecord "0xdd" 7 "0xSender" "0xRecipient" "0xA0b8" 1000 false]
  /\ ~ (sample_inflow [log] [] = inr [] /\ sample_outflow [log] [] = inr []).
Proof.
  cbv zeta. repeat split.
  intros [_ H]. discriminate H.
Qed.

(** ** The theorems at concrete inputs *)

(** A source that is down, bsc, blocks 0 to 999: windows of 400, 201, 101,
    51 and 26 blocks fail in turn and the last failure is thrown. *)
Lemma getLogsSafe_throws_iff_gave_up_witness :
  exists w' fs res,
    sample_scan Sample.down "bsc" 0 999 0%nat = (w', fs, res)
    /\ map (fun f => range_of (request f)) fs = [400; 201; 101; 51; 26]
    /\ res = inl "503"
    /\ ((exists e, res = inl e)
        <-> Exists (fun f => succeeded f = false /\ range_of (request f) <= 50) fs)
    /\ (forall e, res = inl e ->
        exists fs0 req,
          fs = fs0 ++ [mkFetch req (inl e)]
          /\ range_of req <= 50
          /\ Forall (fun f => succeeded f = true \/ 50 < range_of (request f)) fs0).
Proof.
  eexists _, _, _. split; [vm_compute; reflexivity |].
  split; [reflexivity |]. split; [reflexivity |].
  eapply (getLogsSafe_throws_iff_gave_up nat string Sample.down Sample.TOPIC
            "bsc" 0 999 0%nat).
  vm_compute. reflexivity.
Defined.

Lemma shrink_retry_terminates_witness :
  (forall p w0, exists w1 e, Sample.down p w0 = (w1, inl e))
  /\ 100 <= 5000
  /\ exists w' fs last e,
      sample_scan Sample.down "ethereum" 100 5000 0%nat = (w', fs ++ [last], inl e)
      /\ response last = inl e
      /\ range_of (request last) <= 50
      /\ Forall (fun f => succeeded f = false /\ 50 < range_of (request f)) fs
      /\ Forall (fun f => gl_fromBlock (request f) = 100) (fs ++ [last])
      /\ Sorted (fun f g => range_of (request g) < range_of (request f))
           (fs ++ [last]).
Proof.
  assert (Hdown : forall p w0, exists w1 e, Sample.down p w0 = (w1, inl e))
    by (intros p w0; eexists _, _; reflexivity).
  assert (Hle : 100 <= 5000) by lia.
  split; [exact Hdown |]. split; [exact Hle |].
  exact (proj2 (shrink_retry_terminates nat string Sample.down Sample.TOPIC
                  "ethereum" 100 5000 0%nat) Hdown Hle).
Defined.

(** A healthy source, bsc, blocks 0 to 999: three fetches, of 400, 400 and
    200 blocks. *)
Lemma chunk_sizes_and_fetch_count_witness :
  exists w' fs res,
    sample_scan Sample.healthy "bsc" 0 999 0%nat = (w', fs, res)
    /\ 0 <= 999
    /\ Forall (fun f => succeeded f = true) fs
    /\ List.length fs = 3%nat
    /\ map request fs
       = map (fun r => query Sample.TOPIC "bsc" (fst r) (snd r))
           [(0, 399); (400, 799); (800, 999)]
    /\ Forall (fun f => 1 <= range_of (request f) <= 400) fs
    /\ tiles (fetched_ranges fs) 0 999 = true
    /\ exists logs, res = inr logs.
Proof.
  eexists _, _, _. split; [vm_compute; reflexivity |].
  assert (Hle : 0 <= 999) by lia.
  split; [exact Hle |].
  match goal with
  | |- Forall ?P ?fs /\ _ =>
      assert (Hall : Forall P fs) by (repeat constructor)
  end.
  split; [exact Hall |].
  split; [reflexivity |].
  destruct (proj2 (chunk_sizes_and_fetch_count nat string Sample.healthy Sample.TOPIC)
              "bsc" 0 999 0%nat _ _ _ eq_refl Hle Hall)
    as (_ & Hreq & Hsize & Htiles & Hres).
  split; [exact Hreq |]. split; [exact Hsize |]. split; [exact Htiles | exact Hres].
Defined.

Lemma sample_healthy_sorted : sorted_source nat string Sample.healthy.
Proof.
  intros p w w' logs Hget.
  assert (Hlogs : logs = filter (Sample.in_window p) Sample.history)
    by (unfold Sample.healthy in Hget; congruence).
  subst logs. clear Hget. split.
  - unfold Sample.history. cbn [filter].
    repeat match goal with
           | |- context [if ?b then _ else _] => destruct b
           end;
      cbn; repeat (constructor; try lia).
  - apply Forall_forall. intros l Hin. apply filter_In in Hin.
    destruct Hin as [_ Hw]. unfold Sample.in_window in Hw.
    apply andb_prop in Hw. destruct Hw as [H1 H2].
    apply Z.leb_le in H1, H2. lia.
Qed.

(** A healthy source, ethereum, blocks 0 to 6999: the three events come
    back in block order from three fetches. *)
Lemma scan_is_ordered_witness :
  exists w' fs logs,
    sample_scan Sample.healthy "ethereum" 0 6999 0%nat = (w', fs, inr logs)
    /\ fetched_ranges fs = [(0, 2999); (3000, 5999); (6000, 6999)]
    /\ map log_blockNumber logs = [10; 1600; 2500]
    /\ replays nat string Sample.healthy 0%nat fs w'
    /\ ascending (map (fun f => gl_fromBlock (request f)) fs)
    /\ StronglySorted (fun a b => snd a < fst b) (fetched_ranges fs)
    /\ logs = fetched_logs fs
    /\ ascending (map log_blockNumber logs)
    /\ (forall records,
          sample_inflow logs [] = inr records -> ascending (map blockNumber records))
    /\ (forall records,
          sample_outflow logs [] = inr records -> ascending (map blockNumber records))
    /\ (exists deposits, sample_inflow logs [] = inr deposits
                         /\ map blockNumber deposits = [10; 2500])
    /\ (exists withdrawals, sample_outflow logs [] = inr withdrawals
                            /\ map blockNumber withdrawals = [1600]).
Proof.
  eexists _, _, _. split; [vm_compute; reflexivity |].
  split; [reflexivity |]. split; [reflexivity |].
  destruct (scan_is_ordered nat string Sample.healthy Sample.TOPIC
              Sample.parseLog Sample.toUtf8String Sample.hexBufferToString
              "ethereum" 0 6999 0%nat _ _ _ eq_refl)
    as (Hrep & Hasc & _ & Hdisj & Hlogs).
  destruct (Hlogs _ eq_refl) as (Heq & _ & Hsorted).
  destruct (Hsorted sample_healthy_sorted) as (H1 & H2 & H3).
  repeat (split; [assumption |]).
  split; eexists; split; reflexivity.
Defined.

Lemma empty_range_returns_nothing_witness :
  5 < 10
  /\ sample_scan Sample.healthy "polygon" 10 5 0%nat = (0%nat, [], inr [])
  /\ inflowAdapter nat string Sample.healthy Sample.TOPIC Sample.parseLog
       Sample.toUtf8String Sample.hexBufferToString "polygon" 10 5 0%nat
     = (0%nat, [], inr [])
  /\ outflowAdapter nat string Sample.healthy Sample.TOPIC Sample.parseLog
       Sample.toUtf8String Sample.hexBufferToString 10 5 0%nat
     = (0%nat, [], inr [])
  /\ Forall (fun entry => snd entry 10 5 0%nat = (0%nat, [], inr []))
       (adapter nat string Sample.healthy Sample.TOPIC Sample.parseLog
          Sample.toUtf8String Sample.hexBufferToString).
Proof.
  assert (Hempty : 5 < 10) by lia.
  split; [exact Hempty |].
  exact (empty_range_returns_nothing nat string Sample.healthy Sample.TOPIC
           Sample.parseLog Sample.toUtf8String Sample.hexBufferToString
           "polygon" 10 5 0%nat Hempty).
Defined.

(** The first key of ["r=1&c=173&x=9"] is at index 4. *)
Lemma sample_first_key : first_key (js "r=1&c=173&x=9") 4 (js "173").
Proof.
  split.
  - split; [exists 38%N; split; reflexivity |].
    exists (js "&x=9"). split; [reflexivity |]. split; [discriminate |].
    split; [repeat constructor | now intros c post' [= <- _]].
  - intros j ds' [_ (post & Heq & _)].
    destruct j as [| [| [| [| j]]]]; try discriminate Heq. lia.
Qed.

Lemma getDestinationChainId_first_key_witness :
  sample_text Sample.ext_to_eni = Some (js "r=1&c=173&x=9")
  /\ first_key (js "r=1&c=173&x=9") 4 (js "173")
  /\ sample_chain_id Sample.ext_to_eni = Some (Number (js "173"))
  /\ Number (js "173") = Num 173.
Proof.
  assert (Hdecoded : sample_text Sample.ext_to_eni = Some (js "r=1&c=173&x=9"))
    by reflexivity.
  split; [exact Hdecoded |]. split; [exact sample_first_key |].
  destruct (getDestinationChainId_first_key Sample.toUtf8String
              Sample.hexBufferToString Sample.ext_to_eni _ Hdecoded)
    as (Hfirst & _ & _).
  destruct (Hfirst 4%nat (js "173") sample_first_key) as [Hid Hexact].
  split; [exact Hid |]. apply Hexact. reflexivity.
Defined.

Lemma direction_partition_witness :
  let log := Sample.bridge_log "0xaa" 10 Sample.ext_to_eni in
  let args := mkBridgeExecuted "0xSender" "0xRecipient" "0xA0b8" "0xdAC1" 1000
                               Sample.ext_to_eni in
  Sample.parseLog log = Some (inr args)
  /\ sample_chain_id (extData args) = Some (Num 173)
  /\ (sample_inflow [log] [] = inr [transfer_of log args true] <-> Num 173 = Num 173)
  /\ (sample_inflow [log] [] = inr [] <-> Num 173 <> Num 173)
  /\ (sample_outflow [log] [] = inr [transfer_of log args false] <-> Num 173 <> Num 173)
  /\ (sample_outflow [log] [] = inr [] <-> Num 173 = Num 173)
  /\ (sample_inflow [log] [] = inr [] \/ sample_outflow [log] [] = inr []).
Proof.
  cbv zeta.
  split; [reflexivity |]. split; [reflexivity |].
  exact (direction_partition string Sample.parseLog Sample.toUtf8String
           Sample.hexBufferToString
           (Sample.bridge_log "0xaa" 10 Sample.ext_to_eni) _ (Num 173)
           eq_refl eq_refl).
Defined.

Lemma sample_xyz_no_key : forall i ds, ~ key_at (js "xyz") i ds.
Proof.
  intros i ds [_ (post & Heq & _)].
  destruct i as [| [| [| [| i]]]]; discriminate Heq.
Qed.

Lemma unknown_destination_is_outflow_witness :
  let log := Sample.bridge_log "0xdd" 7 Sample.ext_xyz in
  let args := mkBridgeExecuted "0xSender" "0xRecipient" "0xA0b8" "0xdAC1" 1000
                               Sample.ext_xyz in
  Sample.parseLog log = Some (inr args)
  /\ (exists text, sample_text (extData args) = Some text
                   /\ forall i ds, ~ key_at text i ds)
  /\ sample_chain_id (extData args) = None
  /\ sample_inflow [log] [] = inr []
  /\ sample_outflow [log] [] = inr [transfer_of log args false]
  /\ isDeposit (transfer_of log args false) = false.
Proof.
  cbv zeta.
  assert (Hno : exists text, sample_text Sample.ext_xyz = Some text
                             /\ forall i ds, ~ key_at text i ds)
    by (exists (js "xyz"); split; [reflexivity | exact sample_xyz_no_key]).
  split; [reflexivity |]. split; [exact Hno |].
  exact (unknown_destination_is_outflow string Sample.parseLog Sample.toUtf8String
           Sample.hexBufferToString
           (Sample.bridge_log "0xdd" 7 Sample.ext_xyz) _ eq_refl (or_intror Hno)).
Defined.

Lemma transfer_fields_verbatim_witness :
  let log := Sample.bridge_log "0xaa" 10 Sample.ext_to_eni in
  let args := mkBridgeExecuted "0xSender" "0xRecipient" "0xA0b8" "0xdAC1" 1000
                               Sample.ext_to_eni in
  Sample.parseLog log = Some (inr args)
  /\ Sample.toUtf8String (extData args) = Some (js "r=1&c=173&x=9")
  /\ sample_inflow [log] []
     = inr [mkTransferRecord "0xaa" 10 "0xSender" "0xRecipient" "0xA0b8" 1000 true]
  /\ sample_outflow [log] [] = inr [].
Proof.
  cbv zeta.
  split; [reflexivity |]. split; [reflexivity |].
  split; [| reflexivity].
  exact (proj2 (proj2 (transfer_fields_verbatim string Sample.parseLog Sample.toUtf8String
                         Sample.hexBufferToString))
           (Sample.bridge_log "0xaa" 10 Sample.ext_to_eni) _ eq_refl eq_refl).
Defined.


(** ** The further properties at concrete inputs *)

(** The source that rejects windows of more than 1000 blocks, ethereum,
    blocks 0 to 6999. *)
Lemma fetches_stay_in_range_witness :
  exists w' fs res,
    sample_scan (Sample.limited 1000) "ethereum" 0 6999 0%nat = (w', fs, res)
    /\ map (fun f => (gl_fromBlock (request f), gl_toBlock (request f))) fs
       = [(0, 2999); (0, 1500); (0, 750);
          (3000, 5999); (3000, 4500); (3000, 3750);
          (6000, 6999)]
    /\ Forall (fun f =>
                 gl_chain (request f) = "ethereum"
                 /\ gl_target (request f) = ORBITER_CONTRACT
                 /\ gl_topics (request f) = [Sample.TOPIC]
                 /\ 0 <= gl_fromBlock (request f)
                 /\ gl_fromBlock (request f) <= gl_toBlock (request f)
                 /\ gl_toBlock (request f) <= 6999
                 /\ range_of (request f) <= getChunkSize "ethereum"
                 /\ (exists k, 0 <= k
                      /\ gl_fromBlock (request f) = 0 + k * getChunkSize "ethereum")
                 /\ (gl_toBlock (request f)
                     = Z.min (gl_fromBlock (request f) + getChunkSize "ethereum" - 1)
                             6999
                     \/ 26 <= range_of (request f))) fs.
Proof.
  eexists _, _, _. split; [vm_compute; reflexivity |].
  split; [reflexivity |].
  eapply (fetches_stay_in_range nat string (Sample.limited 1000) Sample.TOPIC
            "ethereum" 0 6999 0%nat).
  vm_compute. reflexivity.
Defined.

Lemma returned_windows_are_chunk_prefixes_witness :
  exists w' fs logs,
    sample_scan (Sample.limited 1000) "ethereum" 0 6999 0%nat = (w', fs, inr logs)
    /\ fetched_ranges fs = [(0, 750); (3000, 3750); (6000, 6999)]
    /\ chunks_of (getChunkSize "ethereum") 0 6999
         (chunk_count (getChunkSize "ethereum") 0 6999)
       = [(0, 2999); (3000, 5999); (6000, 6999)]
    /\ Forall2 (fun r c => fst r = fst c
                           /\ fst r <= snd r <= snd c
                           /\ (snd r = snd c \/ 26 <= snd r - fst r + 1))
         (fetched_ranges fs)
         (chunks_of (getChunkSize "ethereum") 0 6999
            (chunk_count (getChunkSize "ethereum") 0 6999))
    /\ List.length (fetched_ranges fs) = chunk_count (getChunkSize "ethereum") 0 6999.
Proof.
  eexists _, _, _. split; [vm_compute; reflexivity |].
  split; [reflexivity |]. split; [reflexivity |].
  eapply (returned_windows_are_chunk_prefixes nat string (Sample.limited 1000)
            Sample.TOPIC "ethereum" 0 6999 0%nat).
  vm_compute. reflexivity.
Defined.

Lemma returned_scan_covers_iff_no_failure_witness :
  exists w' fs logs,
    0 <= 6999
    /\ sample_scan (Sample.limited 1000) "ethereum" 0 6999 0%nat = (w', fs, inr logs)
    /\ tiles (fetched_ranges fs) 0 6999 = false
    /\ (tiles (fetched_ranges fs) 0 6999 = true
        <-> Forall (fun f => succeeded f = true) fs).
Proof.
  assert (Hrange : 0 <= 6999) by lia.
  eexists _, _, _. split; [exact Hrange |].
  split; [vm_compute; reflexivity |].
  split; [reflexivity |].
  eapply (returned_scan_covers_iff_no_failure nat string (Sample.limited 1000)
            Sample.TOPIC "ethereum" 0 6999 0%nat _ _ _ Hrange).
  vm_compute. reflexivity.
Defined.

(** A source that is down, arbitrum: the eight fetches of the first
    chunk. *)
Lemma fetches_per_chunk_bounded_witness :
  exists w' fs res,
    sample_scan Sample.down "arbitrum" 0 9999 0%nat = (w', fs, res)
    /\ map (fun f => range_of (request f)) fs
       = [4000; 2001; 1001; 501; 251; 126; 64; 33]
    /\ chunk_count (getChunkSize "arbitrum") 0 9999 = 3%nat
    /\ (List.length fs <= 8 * chunk_count (getChunkSize "arbitrum") 0 9999)%nat.
Proof.
  eexists _, _, _. split; [vm_compute; reflexivity |].
  split; [reflexivity |]. split; [reflexivity |].
  refine (proj1 (fetches_per_chunk_bounded nat string Sample.down Sample.TOPIC
                   "arbitrum" 0 9999 0%nat _ _ _ _)).
  vm_compute. reflexivity.
Defined.

(** Ethereum, blocks 100 to 7000, cut after two chunks, at block 6100. *)
Lemma scan_splits_at_chunk_boundary_witness :
  100 + Z.of_nat 2 * getChunkSize "ethereum" - 1 <= 7000
  /\ sample_scan (Sample.limited 1000) "ethereum" 100 7000 0%nat
     = match sample_scan (Sample.limited 1000) "ethereum" 100 6099 0%nat with
       | (w1, fs1, inl e) => (w1, fs1, inl e)
       | (w1, fs1, inr logs1) =>
           match sample_scan (Sample.limited 1000) "ethereum" 6100 7000 w1 with
           | (w2, fs2, inl e) => (w2, fs1 ++ fs2, inl e)
           | (w2, fs2, inr logs2) => (w2, fs1 ++ fs2, inr (logs1 ++ logs2))
           end
       end.
Proof.
  assert (Hcut : 100 + Z.of_nat 2 * getChunkSize "ethereum" - 1 <= 7000)
    by (vm_compute; discriminate).
  split; [exact Hcut |].
  exact (scan_splits_at_chunk_boundary nat string (Sample.limited 1000) Sample.TOPIC
           "ethereum" 100 7000 2 0%nat Hcut).
Defined.

Lemma matching_logs_are_emitted_witness :
  let log := Sample.bridge_log "0xbb" 1600 Sample.ext_to_bsc in
  let args := mkBridgeExecuted "0xSender" "0xRecipient" "0xA0b8" "0xdAC1" 1000
                               Sample.ext_to_bsc in
  let logs := Sample.foreign_log "0x01" 5 :: Sample.history in
  In log logs
  /\ Sample.parseLog log = Some (inr args)
  /\ isDestinationENI Sample.toUtf8String Sample.hexBufferToString (extData args)
     = false
  /\ exists records,
      sample_outflow logs [] = inr records
      /\ In (transfer_of log args false) records.
Proof.
  cbv zeta.
  assert (Hin : In (Sample.bridge_log "0xbb" 1600 Sample.ext_to_bsc)
                   (Sample.foreign_log "0x01" 5 :: Sample.history))
    by (right; right; left; reflexivity).
  split; [exact Hin |]. split; [reflexivity |]. split; [reflexivity |].
  eexists. split; [reflexivity |].
  exact (proj2 (matching_logs_are_emitted string Sample.parseLog Sample.toUtf8String
                  Sample.hexBufferToString _ _ _ Hin eq_refl)
           _ eq_refl eq_refl).
Defined.

(** A list with a log of another event and, after the first two events, a
    log whose recipient cannot be read: both loops end with its error. *)
Example unreadable_log_ends_both_loops :
  let logs := [Sample.foreign_log "0x01" 5;
               Sample.bridge_log "0xaa" 10 Sample.ext_to_eni;
               Sample.unreadable_log "0xee" 11;
               Sample.bridge_log "0xbb" 1600 Sample.ext_to_bsc] in
  first_unreadable string Sample.parseLog logs = Some "deferred error: recipient"
  /\ sample_inflow logs [] = inl "deferred error: recipient"
  /\ sample_outflow logs [] = inl "deferred error: recipient".
Proof. repeat split. Qed.

Lemma adapter_entries_scan_their_chain_witness :
  exists w' fs res,
    In ("eni", outflowAdapter nat string Sample.healthy Sample.TOPIC Sample.parseLog
                 Sample.toUtf8String Sample.hexBufferToString)
       (adapter nat string Sample.healthy Sample.TOPIC Sample.parseLog
          Sample.toUtf8String Sample.hexBufferToString)
    /\ outflowAdapter nat string Sample.healthy Sample.TOPIC Sample.parseLog
         Sample.toUtf8String Sample.hexBufferToString 0 2999 0%nat = (w', fs, res)
    /\ Forall (fun f => gl_chain (request f) = "eni") fs
    /\ (forall records,
          res = inr records ->
          Forall (fun r => isDeposit r = negb ("eni" =? "eni")%string) records).
Proof.
  eexists _, _, _.
  match goal with
  | |- ?A /\ _ => assert (Hentry : A) by (unfold adapter; apply in_or_app; right; now left)
  end.
  split; [exact Hentry |]. split; [vm_compute; reflexivity |].
  match goal with
  | |- ?A /\ ?B =>
      cut (A /\ B /\ NoDup (map fst (adapter nat string Sample.healthy Sample.TOPIC
                                       Sample.parseLog Sample.toUtf8String
                                       Sample.hexBufferToString)));
      [intros (H1 & H2 & _); split; [exact H1 | exact H2] |]
  end.
  refine (adapter_entries_scan_their_chain nat string Sample.healthy Sample.TOPIC
            Sample.parseLog Sample.toUtf8String Sample.hexBufferToString
            "eni" _ 0 2999 0%nat _ _ _ Hentry _).
  vm_compute. reflexivity.
Defined.

Lemma sample_limited_windowed limit : windowed_source nat string (Sample.limited limit).
Proof.
  intros p w w' logs Hget. unfold Sample.limited in Hget.
  destruct (limit <? range_of p)%Z; [discriminate |].
  assert (Hlogs : logs = filter (Sample.in_window p) Sample.history) by congruence.
  subst logs. apply Forall_forall. intros l Hin. apply filter_In in Hin.
  destruct Hin as [_ Hw]. unfold Sample.in_window in Hw.
  apply andb_prop in Hw. destruct Hw as [H1 H2].
  apply Z.leb_le in H1, H2. lia.
Qed.

Lemma results_within_requested_range_witness :
  windowed_source nat string (Sample.limited 1000)
  /\ exists w' fs records,
      inflowAdapter nat string (Sample.limited 1000) Sample.TOPIC Sample.parseLog
        Sample.toUtf8String Sample.hexBufferToString "bsc" 5 1999 0%nat
      = (w', fs, inr records)
      /\ map blockNumber records = [10]
      /\ Forall (fun r => 5 <= blockNumber r <= 1999) records.
Proof.
  split; [exact (sample_limited_windowed 1000) |].
  eexists _, _, _. split; [vm_compute; reflexivity |].
  split; [reflexivity |].
  eapply (proj1 (proj2 (results_within_requested_range nat string
                          (Sample.limited 1000) Sample.TOPIC Sample.parseLog
                          Sample.toUtf8String Sample.hexBufferToString
                          "bsc" 5 1999 0%nat (sample_limited_windowed 1000)))).
  vm_compute. reflexivity.
Defined.

Lemma scan_returns_when_small_windows_served_witness :
  (forall p w0, range_of p <= 50 ->
                exists w1 logs, Sample.limited 1000 p w0 = (w1, inr logs))
  /\ exists w' fs logs,
      sample_scan (Sample.limited 1000) "polygon" 0 9999 0%nat = (w', fs, inr logs).
Proof.
  assert (Hserved : forall p w0, range_of p <= 50 ->
                    exists w1 logs, Sample.limited 1000 p w0 = (w1, inr logs)).
  { intros p w0 Hsmall. unfold Sample.limited.
    assert (Hfit : (1000 <? range_of p)%Z = false) by (apply Z.ltb_ge; lia).
    rewrite Hfit. eauto. }
  split; [exact Hserved |].
  exact (scan_returns_when_small_windows_served nat string (Sample.limited 1000)
           Sample.TOPIC "polygon" 0 9999 0%nat Hserved).
Defined.
